(** * MyoLinux: the BLED112 client (src/bled112client.h)

    A shallow embedding of [Bled112Client]: the framing of outgoing
    messages ([write]), the typed reads ([read]) with their header
    validation ([checkHeader]) and the handler dispatch ([dispatch]),
    over a byte-stream transport.

    Sizes are [Z] with the wrap-around of [std::size_t] written out, wire
    bytes are [Byte.byte], and the code that throws or moves the stream is
    written in a small state-and-exception monad. *)

From Stdlib Require Import ZArith NArith List Bool Lia.
From Stdlib.Strings Require Import String Byte.
Import ListNotations.

Open Scope Z_scope.

(** ** Bytes and buffers *)

Module Wire.

(** [Buffer] is the byte vector the transport reads and writes. *)
Definition Buffer := list byte.

(** [Buffer::size()]. *)
Definition size (b : Buffer) : Z := Z.of_nat (List.length b).

(** The value of a byte as an unsigned integer. *)
Definition octet (b : byte) : Z := Z.of_N (Byte.to_N b).

(** Conversion of an integer to [std::uint8_t]: the low eight bits. *)
Definition to_octet (z : Z) : byte :=
  match Byte.of_N (Z.to_N (z mod 256)) with
  | Some b => b
  | None => x00
  end.

(** [std::size_t] of the Linux targets of the library is 64 bits wide. *)
Definition SIZE_WIDTH : Z := 64.
Definition SIZE_MODULUS : Z := 2 ^ SIZE_WIDTH.

(** Unsigned arithmetic in [std::size_t] wraps around. *)
Definition size_t (z : Z) : Z := z mod SIZE_MODULUS.

(** Fixed-width unsigned integers, least significant byte first. *)
Fixpoint le_bytes (width : nat) (v : Z) : Buffer :=
  match width with
  | O => []
  | S width' => to_octet v :: le_bytes width' (v / 256)
  end.

Fixpoint le_value (bs : Buffer) : Z :=
  match bs with
  | [] => 0
  | b :: bs' => octet b + 256 * le_value bs'
  end.

End Wire.

Import Wire.

(** ** Message types and the header (bleapi.h) *)

Module Bleapi.

(** Modelled from the spec: bleapi.h, which declares the message structs
    with their [cls] and [cmd] constants and the [Partial] trait, is not among
    the sources.  A message type is its descriptor: class id, command id, the
    widths in bytes of its fixed-width integer fields in their declared order
    (the struct is packed, so [sizeof] is their sum), and whether the type is
    partial, that is, followed on the wire by a variable-length tail. *)
Record Message := {
  Tcls : byte;
  Tcmd : byte;
  fields : list nat;
  Partial : bool
}.

Definition sizeof (T : Message) : Z :=
  Z.of_nat (fold_right Nat.add O (fields T)).

(** A value of a message type is the list of the values of its fields. *)
Definition Value := list Z.

(** Every field holds a value of its width. *)
Inductive legal : list nat -> Value -> Prop :=
| legal_nil : legal [] []
| legal_cons w v ws vs :
    0 <= v < 2 ^ (8 * Z.of_nat w) -> legal ws vs -> legal (w :: ws) (v :: vs).

(** Modelled from the spec: [pack] and [unpack] of bleapi.h are not among the
    sources.  The spec gives the payload codec as a fixed binary layout of the
    fields in their declared order, each a fixed-width integer in a defined
    byte order; the byte order taken here is the protocol's, least significant
    byte first.  [pack] yields exactly [sizeof T] bytes: a field without a
    value is written as zero. *)
Fixpoint pack_fields (ws : list nat) (vs : Value) : Buffer :=
  match ws with
  | [] => []
  | w :: ws' =>
      match vs with
      | [] => le_bytes w 0 ++ pack_fields ws' []
      | v :: vs' => le_bytes w v ++ pack_fields ws' vs'
      end
  end.

Fixpoint unpack_fields (ws : list nat) (buf : Buffer) : Value :=
  match ws with
  | [] => []
  | w :: ws' => le_value (firstn w buf) :: unpack_fields ws' (skipn w buf)
  end.

Definition pack (T : Message) (payload : Value) : Buffer :=
  pack_fields (fields T) payload.

Definition unpack (T : Message) (buf : Buffer) : Value :=
  unpack_fields (fields T) buf.

(** Modelled from the spec: the [Header] struct of bleapi.h is not among the
    sources.  The spec fixes its size, four bytes, the class id and the
    command id as single bytes, and the length and the message-type flag in
    the remaining bits; the assignment of those bits it leaves to the
    protocol document of the device, whose layout is the one below: the first
    byte holds the three high bits of the length in its low bits, the
    technology type in the next four and the message type in the top bit, the
    second byte holds the low eight bits of the length. *)
Record Header := {
  bits : byte;
  length0 : byte;
  cls : byte;
  cmd : byte
}.

Definition length1 (h : Header) : Z := Z.land (octet (bits h)) 7.
Definition tech (h : Header) : Z := Z.land (Z.shiftr (octet (bits h)) 3) 15.
Definition type (h : Header) : Z := Z.shiftr (octet (bits h)) 7.

(** [Header::length()]: the payload byte count. *)
Definition length (h : Header) : Z :=
  Z.lor (Z.shiftl (length1 h) 8) (octet (length0 h)).

(** [sizeof(Header)]. *)
Definition sizeof_Header : Z := 4.

Definition pack_Header (h : Header) : Buffer :=
  [bits h; length0 h; cls h; cmd h].

Definition unpack_Header (buf : Buffer) : Header :=
  {| bits := nth 0 buf x00;
     length0 := nth 1 buf x00;
     cls := nth 2 buf x00;
     cmd := nth 3 buf x00 |}.

(** Modelled from the spec: [getHeader] of bleapi.h is not among the sources.
    The spec has it compute the header of a message of type [T] from the
    descriptor: class id, command id and length [sizeof T] plus the size of the
    tail, which is zero when none is given.  The length is stored in the
    eleven length bits of the layout; technology and message type are zero for
    a message sent by the host. *)
Definition getHeader (T : Message) (data_length : Z) : Header :=
  {| bits := to_octet (Z.land (Z.shiftr (sizeof T + data_length) 8) 7);
     length0 := to_octet (sizeof T + data_length);
     cls := Tcls T;
     cmd := Tcmd T |}.

End Bleapi.

Import Bleapi.

(** ** The transport (serial.h) *)

Module Transport.

(** Modelled from the spec: the [Serial] class is not among the sources.  Its
    contract is [read(n)], which yields exactly [n] bytes in stream order or
    fails with a transport error, and [write(bytes)], which sends all the
    bytes or fails with a transport error.  The model keeps the bytes the
    stream still delivers ([rx]), the bytes written so far ([tx]) and the
    number of bytes the link still takes before it fails ([room], none for a
    link that does not fail); a read of more bytes than the stream delivers
    fails, and so does a write of more bytes than the link takes, both
    without a partial result. *)
Record Serial := {
  rx : Buffer;
  tx : Buffer;
  room : option Z
}.

Definition Serial_read (n : Z) (s : Serial) : option (Buffer * Serial) :=
  if n <=? size (rx s)
  then Some (firstn (Z.to_nat n) (rx s),
             {| rx := skipn (Z.to_nat n) (rx s); tx := tx s;
                room := room s |})
  else None.

(** The link takes [n] more bytes. *)
Definition takes (n : Z) (s : Serial) : bool :=
  match room s with
  | None => true
  | Some r => n <=? r
  end.

Definition Serial_write (buf : Buffer) (s : Serial) : option Serial :=
  if takes (size buf) s
  then Some {| rx := rx s; tx := tx s ++ buf;
               room := option_map (fun r => r - size buf) (room s) |}
  else None.

End Transport.

Import Transport.

(** ** The client (bled112client.h) *)

Module Bled112Client.

(** What the code throws.  The three mismatches are the [std::runtime_error]s
    of [checkHeader], told apart by their messages; a transport error is the
    failure of the serial link; a handler error is an exception of the
    caller's own, thrown by a handler. *)
Inductive Exception :=
| TransportError
| ClassMismatch
| CommandMismatch
| LengthMismatch
| HandlerError (code : nat).

(** The message of a [std::runtime_error] of [checkHeader]. *)
Definition what (e : Exception) : option string :=
  match e with
  | TransportError => None
  | ClassMismatch =>
      Some "Class index does not match the expected value."%string
  | CommandMismatch =>
      Some "Command index does not match the expected value."%string
  | LengthMismatch =>
      Some "Payload size does not match the expected value."%string
  | HandlerError _ => None
  end.

Inductive Result (A : Type) :=
| Return (a : A)
| Throw (e : Exception).

Arguments Return {A} a.
Arguments Throw {A} e.

(** A handler given to the dispatching [read]: a callable whose first argument
    type [FirstArgument] selects it.  It takes one argument, [void(Type)], or,
    when that type is partial, two, [void(Type, Buffer)].  It is code of the
    caller: on the arguments it is given it returns or throws ([body]). *)
Record Function := {
  name : nat;
  FirstArgument : Message;
  body : Value -> option Buffer -> Result unit
}.

(** One invocation of a handler, with the arguments it received. *)
Record Call := {
  callee : Function;
  argument : Value;
  rest : option Buffer
}.

(** The state the client's methods act on: its socket, and the handler
    invocations made so far, in order. *)
Record World := {
  socket : Serial;
  calls : list Call
}.

(** A method either returns or throws, and leaves a state behind in both
    cases. *)
Definition M (A : Type) : Type := World -> Result A * World.

Definition ret {A} (a : A) : M A := fun w => (Return a, w).

Definition throw {A} (e : Exception) : M A := fun w => (Throw e, w).

Definition bind {A B} (m : M A) (k : A -> M B) : M B :=
  fun w =>
    match m w with
    | (Return a, w') => k a w'
    | (Throw e, w') => (Throw e, w')
    end.

Notation "x <- m ;; k" := (bind m (fun x => k))
  (at level 61, m at next level, right associativity).
Notation "m ;;; k" := (bind m (fun _ => k))
  (at level 61, right associativity).

(** [socket.read(n)] and [socket.write(buf)]. *)
Definition socket_read (n : Z) : M Buffer :=
  fun w =>
    match Serial_read n (socket w) with
    | Some (buf, s') => (Return buf, {| socket := s'; calls := calls w |})
    | None => (Throw TransportError, w)
    end.

Definition socket_write (buf : Buffer) : M unit :=
  fun w =>
    match Serial_write buf (socket w) with
    | Some s' => (Return tt, {| socket := s'; calls := calls w |})
    | None => (Throw TransportError, w)
    end.

(** [function(payload)] and [function(payload, leftover)]: the invocation is
    recorded, and the call returns or throws as the handler does. *)
Definition invoke (function : Function) (payload : Value)
  (leftover : option Buffer) : M unit :=
  fun w =>
    (body function payload leftover,
     {| socket := socket w;
        calls := calls w ++ [{| callee := function;
                                argument := payload;
                                rest := leftover |}] |}).

(** [write(const T &)]. *)
Definition write (T : Message) (payload : Value) : M unit :=
  socket_write (pack_Header (getHeader T 0)) ;;;
  socket_write (pack T payload).

(** [write(const T &, const Buffer &)]. *)
Definition write_leftover (T : Message) (payload : Value) (leftover : Buffer)
  : M unit :=
  socket_write (pack_Header (getHeader T (size leftover))) ;;;
  socket_write (pack T payload) ;;;
  socket_write leftover.

(** [readHeader()]. *)
Definition readHeader : M Header :=
  buf <- socket_read sizeof_Header ;;
  ret (unpack_Header buf).

(** [checkHeader<T>(header)]. *)
Definition checkHeader (T : Message) (header : Header) : M unit :=
  if negb (Byte.eqb (cls header) (Tcls T)) then throw ClassMismatch
  else if negb (Byte.eqb (cmd header) (Tcmd T)) then throw CommandMismatch
  else if negb (Partial T) && negb (length header =? sizeof T)
       then throw LengthMismatch
  else ret tt.

(** [readPayload<T>(header)]. *)
Definition readPayload (T : Message) (header : Header) : M Value :=
  buf <- socket_read (length header) ;;
  ret (unpack T buf).

(** [readPayload<T>(header, leftover)]: the subtraction is in [std::size_t]. *)
Definition readPayload_leftover (T : Message) (header : Header)
  : M (Value * Buffer) :=
  buf <- socket_read (sizeof T) ;;
  leftover <- socket_read (size_t (length header - sizeof T)) ;;
  ret (unpack T buf, leftover).

(** [read<T>()]. *)
Definition read (T : Message) : M Value :=
  header <- readHeader ;;
  checkHeader T header ;;;
  readPayload T header.

(** [read<T>(Buffer &)]. *)
Definition read_leftover (T : Message) : M (Value * Buffer) :=
  header <- readHeader ;;
  checkHeader T header ;;;
  readPayload_leftover T header.

(** The condition under which [dispatch] selects a handler whose first
    argument type is [T]: the [if] of the overload for a type that is not
    partial, and the [if] of the overload for a partial one. *)
Definition selects (header : Header) (T : Message) : bool :=
  if Partial T
  then Byte.eqb (cls header) (Tcls T) && Byte.eqb (cmd header) (Tcmd T)
  else Byte.eqb (cls header) (Tcls T) && Byte.eqb (cmd header) (Tcmd T)
       && (length header =? sizeof T).

(** [dispatch(header, functions...)]: the three overloads, chosen by the
    shape of the argument pack and by [Partial] of the first handler's
    argument type. *)
Fixpoint dispatch (header : Header) (functions : list Function) : M unit :=
  match functions with
  | [] => ret tt
  | function :: functions' =>
      let T := FirstArgument function in
      if Partial T then
        if Byte.eqb (cls header) (Tcls T) && Byte.eqb (cmd header) (Tcmd T)
        then
          r <- readPayload_leftover T header ;;
          invoke function (fst r) (Some (snd r))
        else dispatch header functions'
      else
        if Byte.eqb (cls header) (Tcls T) && Byte.eqb (cmd header) (Tcmd T)
           && (length header =? sizeof T)
        then
          payload <- readPayload T header ;;
          invoke function payload None
        else dispatch header functions'
  end.

(** No handler of [functions] is selected by [header]. *)
Definition passes_over (header : Header) (functions : list Function) : Prop :=
  Forall (fun f => selects header (FirstArgument f) = false) functions.

(** [read(const Functions&...)]. *)
Definition read_dispatch (functions : list Function) : M unit :=
  header <- readHeader ;;
  dispatch header functions.

End Bled112Client.

Import Bled112Client.

(** ** Sample message types, handlers and streams *)

Module Samples.

(** A fixed type and a partial type with one identity, class 2 and
    command 3. *)
Definition A : Message :=
  {| Tcls := x02; Tcmd := x03; fields := [4%nat]; Partial := false |}.

Definition B : Message :=
  {| Tcls := x02; Tcmd := x03; fields := [2%nat]; Partial := true |}.

(** A fixed type of eight bytes, class 5 and command 9. *)
Definition E : Message :=
  {| Tcls := x05; Tcmd := x09; fields := [2%nat; 2%nat; 4%nat];
     Partial := false |}.

(** A request of three bytes, class 4 and command 5. *)
Definition Req : Message :=
  {| Tcls := x04; Tcmd := x05; fields := [1%nat; 2%nat]; Partial := false |}.

(** A partial type of one byte with the identity of [A] and [B]. *)
Definition C : Message :=
  {| Tcls := x02; Tcmd := x03; fields := [1%nat]; Partial := true |}.

(** Handlers that return whatever they are given. *)
Definition returns : Value -> option Buffer -> Result unit :=
  fun _ _ => Return tt.

Definition onA : Function :=
  {| name := 0; FirstArgument := A; body := returns |}.
Definition onB : Function :=
  {| name := 1; FirstArgument := B; body := returns |}.
Definition onE : Function :=
  {| name := 2; FirstArgument := E; body := returns |}.
Definition onC : Function :=
  {| name := 3; FirstArgument := C; body := returns |}.

(** A handler for [A] that throws an exception of its own. *)
Definition failing : Function :=
  {| name := 4; FirstArgument := A;
     body := fun _ _ => Throw (HandlerError 7) |}.

(** A client whose stream still delivers [stream], before any handler has
    run and any byte was written. *)
Definition fresh (stream : Buffer) : World :=
  {| socket := {| rx := stream; tx := []; room := None |}; calls := [] |}.

(** The header of class 2, command 3 and length 4, and the one of length 1. *)
Definition header_2_3_4 : Header :=
  {| bits := x00; length0 := x04; cls := x02; cmd := x03 |}.

Definition header_2_3_1 : Header :=
  {| bits := x00; length0 := x01; cls := x02; cmd := x03 |}.

(** The header of class 6, command 8 and length 7. *)
Definition header_6_8_7 : Header :=
  {| bits := x00; length0 := x07; cls := x06; cmd := x08 |}.

End Samples.

(** ** The bytes of a call, and handlers that can never run *)

Module Wiring.

(** A client that has nothing to read, has written nothing and has invoked
    no handler. *)
Definition silent : World :=
  {| socket := {| rx := []; tx := []; room := None |}; calls := [] |}.

(** The bytes a method puts on the wire when a silent client runs it. *)
Definition sent {A} (m : M A) : Buffer := tx (socket (snd (m silent))).

(** The state of [w] with [stream] as the bytes still to be read. *)
Definition pending (stream : Buffer) (w : World) : World :=
  {| socket := {| rx := stream; tx := tx (socket w);
                  room := room (socket w) |};
     calls := calls w |}.

(** The state of [w] after the link has taken [buf]. *)
Definition wrote (buf : Buffer) (w : World) : World :=
  {| socket := {| rx := rx (socket w); tx := tx (socket w) ++ buf;
                  room := option_map (fun r => r - size buf)
                            (room (socket w)) |};
     calls := calls w |}.

(** The state of [w] after one more invocation. *)
Definition called (c : Call) (w : World) : World :=
  {| socket := socket w; calls := calls w ++ [c] |}.

(** The invocation [dispatch] makes of [function] for a payload of
    [header.length()] bytes: the value decoded from the first [sizeof T]
    bytes and, for a partial type, the bytes behind them. *)
Definition delivery (function : Function) (payload : Buffer) : Call :=
  let T := FirstArgument function in
  {| callee := function;
     argument := unpack T (firstn (Z.to_nat (sizeof T)) payload);
     rest := if Partial T
             then Some (skipn (Z.to_nat (sizeof T)) payload)
             else None |}.

(** Some handler of [functions] is selected by [header]. *)
Definition any_selects (header : Header) (functions : list Function) : bool :=
  existsb (fun f => selects header (FirstArgument f)) functions.

(** Every header that selects a handler of type [T'] selects one of type [T]
    as well: the identities are equal, and [T] is partial or both are fixed
    with one size. *)
Definition covers (T T' : Message) : Prop :=
  Tcls T' = Tcls T /\ Tcmd T' = Tcmd T
  /\ (Partial T = true \/ (Partial T' = false /\ sizeof T' = sizeof T)).

(** [function] is the first handler of [functions] that [header] selects. *)
Definition first_match (header : Header) (functions : list Function)
  (function : Function) : Prop :=
  exists before after,
    functions = before ++ function :: after
    /\ passes_over header before
    /\ selects header (FirstArgument function) = true.

End Wiring.

Import Wiring.

(** ** Bytes *)

Lemma octet_range (b : byte) : 0 <= octet b < 256.
Proof.
  unfold octet. pose proof (Byte.to_N_bounded b). lia.
Qed.

Lemma octet_to_octet (z : Z) : octet (to_octet z) = z mod 256.
Proof.
  unfold octet, to_octet.
  assert (Hr : 0 <= z mod 256 < 256) by (apply Z.mod_pos_bound; lia).
  destruct (Byte.of_N (Z.to_N (z mod 256))) as [b|] eqn:E.
  - apply Byte.to_of_N in E. rewrite E. lia.
  - apply Byte.of_N_None_iff in E. lia.
Qed.

Lemma to_octet_octet (b : byte) : to_octet (octet b) = b.
Proof.
  unfold to_octet. pose proof (octet_range b) as Hr.
  rewrite Z.mod_small by exact Hr.
  unfold octet. rewrite N2Z.id, Byte.of_to_N. reflexivity.
Qed.

Lemma byte_eqb_eq (x y : byte) : Byte.eqb x y = true <-> x = y.
Proof.
  split; [apply Byte.byte_dec_bl | apply Byte.byte_dec_lb].
Qed.

Lemma byte_eqb_neq (x y : byte) : Byte.eqb x y = false <-> x <> y.
Proof.
  split.
  - apply Byte.eqb_false.
  - intros Hne. destruct (Byte.eqb x y) eqn:E; [|reflexivity].
    apply byte_eqb_eq in E. contradiction.
Qed.

Lemma size_app (a b : Buffer) : size (a ++ b) = size a + size b.
Proof.
  unfold size. rewrite length_app. lia.
Qed.

Lemma size_nonneg (a : Buffer) : 0 <= size a.
Proof. unfold size. lia. Qed.

Lemma size_zero (a : Buffer) : size a = 0 -> a = [].
Proof.
  unfold size. destruct a; [reflexivity | simpl; lia].
Qed.

(** ** The integer codec *)

Lemma le_bytes_length (w : nat) (v : Z) : List.length (le_bytes w v) = w.
Proof.
  revert v. induction w as [|w IH]; intros v; simpl; [reflexivity|].
  now rewrite IH.
Qed.

Lemma le_value_le_bytes (w : nat) :
  forall v, 0 <= v < 2 ^ (8 * Z.of_nat w) -> le_value (le_bytes w v) = v.
Proof.
  induction w as [|w IH]; intros v Hv.
  - simpl in *. lia.
  - cbn [le_bytes le_value].
    rewrite octet_to_octet.
    replace (8 * Z.of_nat (S w)) with (8 + 8 * Z.of_nat w) in Hv by lia.
    rewrite Z.pow_add_r in Hv by lia.
    change (2 ^ 8) with 256 in Hv.
    rewrite IH.
    + pose proof (Z.div_mod v 256). lia.
    + split.
      * apply Z.div_pos; lia.
      * apply Z.div_lt_upper_bound; lia.
Qed.

Lemma pack_fields_length (ws : list nat) :
  forall vs, List.length (pack_fields ws vs) = fold_right Nat.add O ws.
Proof.
  induction ws as [|w ws IH]; intros vs; [reflexivity|].
  destruct vs as [|v vs]; cbn [pack_fields fold_right];
    rewrite length_app, le_bytes_length, IH; reflexivity.
Qed.

Lemma size_pack (T : Message) (payload : Value) :
  size (pack T payload) = sizeof T.
Proof.
  unfold size, pack, sizeof. now rewrite pack_fields_length.
Qed.

Lemma unpack_pack_fields (ws : list nat) (vs : Value) :
  legal ws vs -> unpack_fields ws (pack_fields ws vs) = vs.
Proof.
  induction 1 as [|w v ws vs Hv Hl IH]; [reflexivity|].
  cbn [pack_fields unpack_fields].
  rewrite firstn_app, skipn_app, le_bytes_length, Nat.sub_diag.
  rewrite firstn_all2 by (rewrite le_bytes_length; lia).
  rewrite skipn_all2 by (rewrite le_bytes_length; lia).
  cbn [firstn skipn app]. rewrite app_nil_r, le_value_le_bytes by exact Hv.
  now rewrite IH.
Qed.

(** ** The header *)

Lemma lor_high_low (hi lo : Z) :
  0 <= lo < 256 -> Z.lor (Z.shiftl hi 8) lo = hi * 256 + lo.
Proof.
  intros Hlo.
  rewrite Z.shiftl_mul_pow2 by lia. change (2 ^ 8) with 256.
  assert (Hdisjoint : Z.land (hi * 256) lo = 0).
  { apply Z.bits_inj'. intros n Hn. rewrite Z.land_spec, Z.bits_0.
    destruct (Z.ltb_spec n 8) as [Hlt|Hge].
    - change 256 with (2 ^ 8). now rewrite Z.mul_pow2_bits_low by lia.
    - replace (Z.testbit lo n) with false; [apply andb_false_r|].
      symmetry. destruct (Z.eq_dec lo 0) as [->|Hne]; [apply Z.bits_0|].
      apply Z.bits_above_log2; [lia|].
      apply Z.lt_le_trans with 8; [|exact Hge].
      apply Z.log2_lt_pow2; [lia|]. change (2 ^ 8) with 256. lia. }
  rewrite <- Z.lxor_lor by exact Hdisjoint.
  now rewrite <- Z.add_nocarry_lxor by exact Hdisjoint.
Qed.

Lemma land_7_range (z : Z) : 0 <= Z.land z 7 < 8.
Proof.
  change 7 with (Z.ones 3). rewrite Z.land_ones by lia.
  apply Z.mod_pos_bound. lia.
Qed.

Lemma length_range (h : Header) : 0 <= length h < 2048.
Proof.
  unfold length, length1.
  pose proof (octet_range (length0 h)) as Hl.
  pose proof (land_7_range (octet (bits h))) as H7.
  rewrite lor_high_low by exact Hl. lia.
Qed.

Lemma unpack_pack_Header (h : Header) : unpack_Header (pack_Header h) = h.
Proof. destruct h; reflexivity. Qed.

Lemma size_pack_Header (h : Header) : size (pack_Header h) = sizeof_Header.
Proof. reflexivity. Qed.

Lemma getHeader_length (T : Message) (n : Z) :
  0 <= sizeof T + n < 2048 -> length (getHeader T n) = sizeof T + n.
Proof.
  intros Hs. unfold length, length1, getHeader; cbn [bits length0].
  set (s := sizeof T + n) in *.
  rewrite !octet_to_octet.
  assert (Hq : 0 <= s / 256 < 8).
  { split; [apply Z.div_pos; lia | apply Z.div_lt_upper_bound; lia]. }
  rewrite Z.shiftr_div_pow2 by lia. change (2 ^ 8) with 256.
  assert (H7 : Z.land (s / 256) 7 = s / 256).
  { change 7 with (Z.ones 3). rewrite Z.land_ones by lia.
    apply Z.mod_small. change (2 ^ 3) with 8. lia. }
  rewrite H7, (Z.mod_small (s / 256)) by lia. rewrite H7.
  rewrite lor_high_low by (apply Z.mod_pos_bound; lia).
  pose proof (Z.div_mod s 256). lia.
Qed.

(** ** The transport *)

Lemma socket_read_app (n : Z) (buf stream : Buffer) (w : World) :
  rx (socket w) = buf ++ stream -> size buf = n ->
  socket_read n w =
    (Return buf,
     {| socket := {| rx := stream; tx := tx (socket w);
                     room := room (socket w) |};
        calls := calls w |}).
Proof.
  intros Hrx Hn. unfold socket_read, Serial_read.
  rewrite Hrx, size_app.
  pose proof (size_nonneg stream).
  destruct (Z.leb_spec n (size buf + size stream)) as [_|Hlt]; [|lia].
  assert (Hnat : Z.to_nat n = List.length buf) by (unfold size in Hn; lia).
  rewrite Hnat, firstn_app, skipn_app, Nat.sub_diag.
  rewrite firstn_all2, skipn_all2 by lia.
  cbn [firstn skipn app]. now rewrite app_nil_r.
Qed.

(** A read that returns took its bytes off the front of the stream and left
    everything else as it was. *)
Lemma socket_read_returns (n : Z) (w w' : World) (buf : Buffer) :
  0 <= n ->
  socket_read n w = (Return buf, w') ->
  rx (socket w) = buf ++ rx (socket w') /\ size buf = n
  /\ rx (socket w') = skipn (Z.to_nat n) (rx (socket w))
  /\ tx (socket w') = tx (socket w) /\ calls w' = calls w.
Proof.
  intros Hn. unfold socket_read, Serial_read.
  destruct (Z.leb_spec n (size (rx (socket w)))) as [Hle|Hlt];
    [|discriminate].
  intros [= <- <-]; cbn [socket rx tx calls].
  rewrite firstn_skipn. repeat split.
  unfold size in *. rewrite length_firstn. lia.
Qed.

(** A read throws nothing but a transport error, and then leaves the state
    untouched. *)
Lemma socket_read_throws (n : Z) (w w' : World) (e : Exception) :
  socket_read n w = (Throw e, w') -> e = TransportError /\ w' = w.
Proof.
  unfold socket_read. destruct (Serial_read n (socket w)) as [[buf s]|].
  - discriminate.
  - now intros [= <- <-].
Qed.

Lemma readHeader_app (hb stream : Buffer) (w : World) :
  rx (socket w) = hb ++ stream -> size hb = sizeof_Header ->
  readHeader w =
    (Return (unpack_Header hb),
     {| socket := {| rx := stream; tx := tx (socket w);
                     room := room (socket w) |};
        calls := calls w |}).
Proof.
  intros Hrx Hsz. unfold readHeader, bind.
  now rewrite (socket_read_app _ _ _ _ Hrx Hsz).
Qed.

(** ** Round trips of the codecs *)

(** C7: decoding the encoding of a legal value of a message type gives the
    value back; the header codec gives back every header, and the header of
    a message carries its class id, its command id and its length through
    the four bytes. *)
Theorem codec_round_trip :
  (forall (T : Message) (v : Value),
      legal (fields T) v -> unpack T (pack T v) = v)
  /\ (forall h : Header, unpack_Header (pack_Header h) = h)
  /\ (forall (T : Message) (n : Z),
         0 <= sizeof T + n < 2048 ->
         let h := unpack_Header (pack_Header (getHeader T n)) in
         cls h = Tcls T /\ cmd h = Tcmd T /\ length h = sizeof T + n).
Proof.
  split; [|split].
  - intros T v Hv. unfold unpack, pack. now apply unpack_pack_fields.
  - apply unpack_pack_Header.
  - intros T n Hs h. subst h. rewrite unpack_pack_Header.
    repeat split. now apply getHeader_length.
Qed.

(** The value [0x1234, 0x0005, 0xdeadbeef] of the eight-byte type, and the
    header of class 5, command 9 and length 12 (the eight bytes and a tail of
    four). *)
Lemma codec_round_trip_witness :
  unpack Samples.E (pack Samples.E [4660; 5; 3735928559])
    = [4660; 5; 3735928559]
  /\ (let h := unpack_Header (pack_Header (getHeader Samples.E 4)) in
      cls h = x05 /\ cmd h = x09 /\ length h = 12).
Proof.
  destruct codec_round_trip as [Hvalue [_ Hheader]].
  split.
  - apply (Hvalue Samples.E [4660; 5; 3735928559]).
    repeat constructor; simpl; lia.
  - apply (Hheader Samples.E 4). unfold sizeof; simpl; lia.
Defined.

(** ** Sending *)

Lemma sizeof_nonneg (T : Message) : 0 <= sizeof T.
Proof. unfold sizeof. lia. Qed.

Lemma socket_write_takes (buf : Buffer) (w : World) :
  takes (size buf) (socket w) = true ->
  socket_write buf w = (Return tt, wrote buf w).
Proof.
  intros Htakes. unfold socket_write, Serial_write. now rewrite Htakes.
Qed.

Lemma socket_write_fails (buf : Buffer) (w : World) :
  takes (size buf) (socket w) = false ->
  socket_write buf w = (Throw TransportError, w).
Proof.
  intros Htakes. unfold socket_write, Serial_write. now rewrite Htakes.
Qed.

Lemma wrote_app (a b : Buffer) (w : World) :
  wrote b (wrote a w) = wrote (a ++ b) w.
Proof.
  unfold wrote. cbn [socket rx tx room calls].
  rewrite <- app_assoc, size_app.
  destruct (room (socket w)) as [r|]; cbn [option_map]; [|reflexivity].
  do 3 f_equal. lia.
Qed.

(** A link that takes two buffers at once takes the first, and then the
    second. *)
Lemma takes_app (a b : Buffer) (w : World) :
  takes (size a + size b) (socket w) = true <->
  takes (size a) (socket w) = true
  /\ takes (size b) (socket (wrote a w)) = true.
Proof.
  unfold takes, wrote. cbn [socket room].
  pose proof (size_nonneg a). pose proof (size_nonneg b).
  destruct (room (socket w)) as [r|]; cbn [option_map]; [|tauto].
  rewrite !Z.leb_le. lia.
Qed.

(** The bytes a send with a tail puts on the wire, when the link takes
    them. *)
Lemma write_leftover_takes (T : Message) (payload : Value)
  (leftover : Buffer) (w : World) :
  takes (4 + sizeof T + size leftover) (socket w) = true ->
  write_leftover T payload leftover w
    = (Return tt,
       wrote (pack_Header (getHeader T (size leftover))
                ++ pack T payload ++ leftover) w).
Proof.
  intros Htakes.
  set (hb := pack_Header (getHeader T (size leftover))).
  assert (Hall : takes (size hb + (size (pack T payload) + size leftover))
                   (socket w) = true).
  { rewrite size_pack. unfold hb. rewrite size_pack_Header.
    unfold sizeof_Header.
    now replace (4 + (sizeof T + size leftover))
      with (4 + sizeof T + size leftover) by lia. }
  rewrite <- size_app in Hall.
  apply takes_app in Hall. destruct Hall as [Hh Hrest].
  rewrite size_app in Hrest. apply takes_app in Hrest.
  destruct Hrest as [Hp Hl].
  unfold write_leftover, bind. fold hb.
  rewrite (socket_write_takes _ _ Hh), (socket_write_takes _ _ Hp),
    (socket_write_takes _ _ Hl).
  now rewrite !wrote_app.
Qed.

Lemma write_takes (T : Message) (payload : Value) (w : World) :
  takes (4 + sizeof T) (socket w) = true ->
  write T payload w
    = (Return tt, wrote (pack_Header (getHeader T 0) ++ pack T payload) w).
Proof.
  intros Htakes.
  set (hb := pack_Header (getHeader T 0)).
  assert (Hall : takes (size hb + size (pack T payload)) (socket w) = true)
    by (rewrite size_pack; exact Htakes).
  apply takes_app in Hall. destruct Hall as [Hh Hp].
  unfold write, bind. fold hb.
  rewrite (socket_write_takes _ _ Hh), (socket_write_takes _ _ Hp).
  now rewrite wrote_app.
Qed.

(** A send that returns was taken whole by the link. *)
Lemma write_leftover_returns (T : Message) (payload : Value)
  (leftover : Buffer) (w w' : World) :
  write_leftover T payload leftover w = (Return tt, w') ->
  takes (4 + sizeof T + size leftover) (socket w) = true.
Proof.
  set (hb := pack_Header (getHeader T (size leftover))).
  unfold write_leftover, bind. fold hb.
  destruct (takes (size hb) (socket w)) eqn:Hh;
    [|rewrite (socket_write_fails _ _ Hh); discriminate].
  rewrite (socket_write_takes _ _ Hh).
  destruct (takes (size (pack T payload)) (socket (wrote hb w))) eqn:Hp;
    [|rewrite (socket_write_fails _ _ Hp); discriminate].
  rewrite (socket_write_takes _ _ Hp).
  destruct (takes (size leftover) (socket (wrote (pack T payload) (wrote hb w))))
    eqn:Hl; [|rewrite (socket_write_fails _ _ Hl); discriminate].
  intros _.
  rewrite wrote_app in Hl.
  assert (Hrest : takes (size (hb ++ pack T payload) + size leftover)
                    (socket w) = true).
  { apply takes_app. split; [|exact Hl].
    rewrite size_app. apply takes_app. auto. }
  rewrite size_app, size_pack in Hrest. exact Hrest.
Qed.

(** C6, as the code has it: a send of a payload of type [T] with a tail that
    the link takes appends to the bytes written the header of [T], then the
    [sizeof T] payload bytes, then the tail, and changes nothing else; a send
    without a tail appends the header and the payload bytes; and a send that
    returns has done so.  The header has the class and command of [T]; its
    length is [sizeof T] plus the size of the tail when that is below 2048,
    the lengths the eleven length bits hold. *)
Theorem write_frames (T : Message) (payload : Value) (leftover : Buffer)
  (w : World) :
  (let header := getHeader T (size leftover) in
   cls header = Tcls T /\ cmd header = Tcmd T
   /\ (sizeof T + size leftover < 2048 ->
       length header = sizeof T + size leftover)
   /\ (takes (4 + sizeof T + size leftover) (socket w) = true ->
       write_leftover T payload leftover w =
         (Return tt,
          wrote (pack_Header header ++ pack T payload ++ leftover) w))
   /\ (forall w',
          write_leftover T payload leftover w = (Return tt, w') ->
          w' = wrote (pack_Header header ++ pack T payload ++ leftover) w))
  /\ (let header := getHeader T 0 in
      cls header = Tcls T /\ cmd header = Tcmd T
      /\ (sizeof T < 2048 -> length header = sizeof T)
      /\ (takes (4 + sizeof T) (socket w) = true ->
          write T payload w =
            (Return tt, wrote (pack_Header header ++ pack T payload) w)))
  /\ size (pack T payload) = sizeof T.
Proof.
  pose proof (sizeof_nonneg T) as HT. pose proof (size_nonneg leftover) as Hl.
  split; [|split].
  - cbv zeta. split; [reflexivity|]. split; [reflexivity|]. split; [|split].
    + intros Hfit. apply getHeader_length. lia.
    + apply write_leftover_takes.
    + intros w' Hret.
      pose proof (write_leftover_returns _ _ _ _ _ Hret) as Htakes.
      rewrite (write_leftover_takes _ _ _ _ Htakes) in Hret. congruence.
  - cbv zeta. split; [reflexivity|]. split; [reflexivity|]. split.
    + intros Hfit. rewrite getHeader_length by lia. lia.
    + apply write_takes.
  - apply size_pack.
Qed.

(** The request of three bytes, sent alone and sent with a tail of two. *)
Lemma write_frames_witness :
  write Samples.Req [7; 513] (Samples.fresh [])
    = (Return tt,
       {| socket := {| rx := [];
                       tx := [x00; x03; x04; x05] ++ [x07; x01; x02];
                       room := None |};
          calls := [] |})
  /\ write_leftover Samples.Req [7; 513] [xaa; xbb] (Samples.fresh [])
     = (Return tt,
        {| socket := {| rx := [];
                        tx := [x00; x05; x04; x05] ++ [x07; x01; x02]
                              ++ [xaa; xbb];
                        room := None |};
           calls := [] |})
  /\ length (getHeader Samples.Req (size [xaa; xbb])) = 3 + 2.
Proof.
  destruct (write_frames Samples.Req [7; 513] [xaa; xbb] (Samples.fresh []))
    as [(_ & _ & Hlen & Htail & _) [(_ & _ & _ & Hplain) _]].
  split; [exact (Hplain eq_refl)|]. split; [exact (Htail eq_refl)|].
  apply Hlen. reflexivity.
Defined.

(** C6, as stated, fails: the request of three bytes sent with a tail of
    2045 bytes is taken by the link, and the header written has length 0,
    not 2048. *)
Lemma write_frames_counterexample :
  fst (write_leftover Samples.Req [7; 513] (repeat x00 2045)
         (Samples.fresh [])) = Return tt
  /\ length (unpack_Header
               (firstn 4
                  (tx (socket (snd (write_leftover Samples.Req [7; 513]
                                      (repeat x00 2045)
                                      (Samples.fresh [])))))))
     = 0
  /\ sizeof Samples.Req + size (repeat x00 2045) = 2048.
Proof.
  vm_compute. repeat split.
Qed.

(** ** The validator *)

Lemma checkHeader_class (T : Message) (header : Header) (w : World) :
  cls header <> Tcls T -> checkHeader T header w = (Throw ClassMismatch, w).
Proof.
  intros Hc. unfold checkHeader.
  apply byte_eqb_neq in Hc. now rewrite Hc.
Qed.

Lemma checkHeader_command (T : Message) (header : Header) (w : World) :
  cls header = Tcls T -> cmd header <> Tcmd T ->
  checkHeader T header w = (Throw CommandMismatch, w).
Proof.
  intros Hc Hd. unfold checkHeader.
  apply byte_eqb_eq in Hc. apply byte_eqb_neq in Hd. now rewrite Hc, Hd.
Qed.

Lemma checkHeader_length (T : Message) (header : Header) (w : World) :
  cls header = Tcls T -> cmd header = Tcmd T ->
  Partial T = false -> length header <> sizeof T ->
  checkHeader T header w = (Throw LengthMismatch, w).
Proof.
  intros Hc Hd Hp Hl. unfold checkHeader.
  apply byte_eqb_eq in Hc, Hd. apply Z.eqb_neq in Hl.
  now rewrite Hc, Hd, Hp, Hl.
Qed.

Lemma checkHeader_passes (T : Message) (header : Header) (w : World) :
  cls header = Tcls T -> cmd header = Tcmd T ->
  Partial T = true \/ length header = sizeof T ->
  checkHeader T header w = (Return tt, w).
Proof.
  intros Hc Hd Hl. unfold checkHeader.
  apply byte_eqb_eq in Hc, Hd. rewrite Hc, Hd. cbn [negb].
  destruct Hl as [Hp|Hl].
  - now rewrite Hp.
  - apply Z.eqb_eq in Hl. rewrite Hl. now rewrite andb_false_r.
Qed.

(** The validator never touches the state, and throws nothing but the three
    mismatches. *)
Lemma checkHeader_frame (T : Message) (header : Header) (w w' : World)
  (r : Result unit) :
  checkHeader T header w = (r, w') ->
  w' = w /\ r <> Throw TransportError.
Proof.
  unfold checkHeader.
  destruct (negb (Byte.eqb (cls header) (Tcls T)));
    [intros [= <- <-]; split; [reflexivity | discriminate]|].
  destruct (negb (Byte.eqb (cmd header) (Tcmd T)));
    [intros [= <- <-]; split; [reflexivity | discriminate]|].
  destruct (negb (Partial T) && negb (length header =? sizeof T));
    intros [= <- <-]; split; try reflexivity; discriminate.
Qed.

(** C10: the validator checks the class, then the command, then the length,
    and the first check that fails decides the error: a class mismatch is
    reported whatever the command and the length are, and a command mismatch
    whatever the length is. *)
Theorem checkHeader_priority (T : Message) (header : Header) (w : World) :
  (cls header <> Tcls T ->
   checkHeader T header w = (Throw ClassMismatch, w))
  /\ (cls header = Tcls T -> cmd header <> Tcmd T ->
      checkHeader T header w = (Throw CommandMismatch, w))
  /\ (cls header = Tcls T -> cmd header = Tcmd T ->
      Partial T = false -> length header <> sizeof T ->
      checkHeader T header w = (Throw LengthMismatch, w)).
Proof.
  split; [|split].
  - apply checkHeader_class.
  - apply checkHeader_command.
  - apply checkHeader_length.
Qed.

(** A header that differs from the eight-byte type in class, command and
    length is reported as a class mismatch. *)
Lemma checkHeader_priority_witness :
  checkHeader Samples.E Samples.header_6_8_7 (Samples.fresh [])
    = (Throw ClassMismatch, Samples.fresh [])
  /\ cmd Samples.header_6_8_7 <> Tcmd Samples.E
  /\ length Samples.header_6_8_7 <> sizeof Samples.E.
Proof.
  split; [|split; [discriminate | discriminate]].
  apply (checkHeader_priority Samples.E Samples.header_6_8_7
           (Samples.fresh [])).
  discriminate.
Defined.

(** ** Typed reads *)

(** Both typed reads are the header read, the validator and the payload read
    in sequence. *)
Lemma read_unfold (T : Message) (hb stream : Buffer) (w : World) :
  rx (socket w) = hb ++ stream -> size hb = sizeof_Header ->
  let header := unpack_Header hb in
  let w1 := {| socket := {| rx := stream; tx := tx (socket w);
                     room := room (socket w) |};
               calls := calls w |} in
  read T w =
    match checkHeader T header w1 with
    | (Return _, w2) => readPayload T header w2
    | (Throw e, w2) => (Throw e, w2)
    end
  /\ read_leftover T w =
       match checkHeader T header w1 with
       | (Return _, w2) => readPayload_leftover T header w2
       | (Throw e, w2) => (Throw e, w2)
       end.
Proof.
  intros Hrx Hsz header w1. unfold read, read_leftover, bind.
  rewrite (readHeader_app _ _ _ Hrx Hsz). fold header. fold w1.
  destruct (checkHeader T header w1) as [[[]|e] w2]; split; reflexivity.
Qed.

Lemma readPayload_app (T : Message) (header : Header)
  (payload stream : Buffer) (w : World) :
  rx (socket w) = payload ++ stream -> size payload = length header ->
  readPayload T header w =
    (Return (unpack T payload),
     {| socket := {| rx := stream; tx := tx (socket w);
                     room := room (socket w) |};
        calls := calls w |}).
Proof.
  intros Hrx Hsz. unfold readPayload, bind.
  now rewrite (socket_read_app _ _ _ _ Hrx Hsz).
Qed.

Lemma readPayload_leftover_app (T : Message) (header : Header)
  (payload tail stream : Buffer) (w : World) :
  rx (socket w) = payload ++ tail ++ stream ->
  size payload = sizeof T ->
  size tail = size_t (length header - sizeof T) ->
  readPayload_leftover T header w =
    (Return (unpack T payload, tail),
     {| socket := {| rx := stream; tx := tx (socket w);
                     room := room (socket w) |};
        calls := calls w |}).
Proof.
  intros Hrx Hp Ht. unfold readPayload_leftover, bind.
  rewrite (socket_read_app _ _ _ _ Hrx Hp).
  now rewrite (socket_read_app _ tail stream
                 {| socket := {| rx := tail ++ stream; tx := tx (socket w);
                     room := room (socket w) |};
                    calls := calls w |} eq_refl Ht).
Qed.



Lemma readHeader_returns (w w' : World) (header : Header) :
  readHeader w = (Return header, w') ->
  sizeof_Header <= size (rx (socket w))
  /\ header = unpack_Header (firstn 4 (rx (socket w)))
  /\ rx (socket w') = skipn 4 (rx (socket w))
  /\ tx (socket w') = tx (socket w) /\ calls w' = calls w.
Proof.
  unfold readHeader, bind.
  destruct (socket_read sizeof_Header w) as [[buf|e] w1] eqn:E;
    [|discriminate].
  intros [= <- <-].
  assert (Hbuf : buf = firstn 4 (rx (socket w))).
  { revert E. unfold socket_read, Serial_read.
    destruct (sizeof_Header <=? size (rx (socket w))); [|discriminate].
    now intros [= <- _]. }
  apply socket_read_returns in E; [|unfold sizeof_Header; lia].
  destruct E as (Hrx & Hsz & Hskip & Htx & Hcalls).
  repeat split; try assumption.
  - rewrite Hrx, size_app, Hsz. pose proof (size_nonneg (rx (socket w1))). lia.
  - now rewrite Hbuf.
Qed.

Lemma readHeader_throws (w w' : World) (e : Exception) :
  readHeader w = (Throw e, w') -> e = TransportError /\ w' = w.
Proof.
  unfold readHeader, bind.
  destruct (socket_read sizeof_Header w) as [[buf|e1] w1] eqn:E;
    [discriminate|].
  intros [= <- <-]. now apply socket_read_throws in E.
Qed.

Lemma readPayload_throws (T : Message) (header : Header) (w w' : World)
  (e : Exception) :
  readPayload T header w = (Throw e, w') -> e = TransportError.
Proof.
  unfold readPayload, bind.
  destruct (socket_read (length header) w) as [[buf|e1] w1] eqn:E;
    [discriminate|].
  intros [= <- <-]. now apply socket_read_throws in E.
Qed.

Lemma readPayload_leftover_throws (T : Message) (header : Header)
  (w w' : World) (e : Exception) :
  readPayload_leftover T header w = (Throw e, w') -> e = TransportError.
Proof.
  unfold readPayload_leftover, bind.
  destruct (socket_read (sizeof T) w) as [[buf|e1] w1] eqn:E1.
  - destruct (socket_read (size_t (length header - sizeof T)) w1)
      as [[tail|e2] w2] eqn:E2; [discriminate|].
    intros [= <- <-]. now apply socket_read_throws in E2.
  - intros [= <- <-]. now apply socket_read_throws in E1.
Qed.

(** C9: a typed read that throws a header mismatch has taken the four header
    bytes off the stream and nothing more: the error is the validator's on
    the header those bytes decode to, and no payload byte was read, no byte
    written and no handler run. *)
Theorem read_mismatch_consumes_header (T : Message) (w w' : World)
  (e : Exception) :
  e <> TransportError ->
  read T w = (Throw e, w') \/ read_leftover T w = (Throw e, w') ->
  sizeof_Header <= size (rx (socket w))
  /\ rx (socket w') = skipn 4 (rx (socket w))
  /\ tx (socket w') = tx (socket w)
  /\ calls w' = calls w
  /\ checkHeader T (unpack_Header (firstn 4 (rx (socket w)))) w'
     = (Throw e, w').
Proof.
  intros He Hthrow.
  assert (Hstep : exists header w1,
             readHeader w = (Return header, w1)
             /\ checkHeader T header w1 = (Throw e, w')).
  { destruct Hthrow as [H|H]; revert H; unfold read, read_leftover, bind;
      destruct (readHeader w) as [[header|e1] w1] eqn:Eh.
    - destruct (checkHeader T header w1) as [[[]|e2] w2] eqn:Ec.
      + intros H. apply readPayload_throws in H. contradiction.
      + intros [= <- <-]. now exists header, w1.
    - intros [= <- <-]. apply readHeader_throws in Eh. tauto.
    - destruct (checkHeader T header w1) as [[[]|e2] w2] eqn:Ec.
      + intros H. apply readPayload_leftover_throws in H. contradiction.
      + intros [= <- <-]. now exists header, w1.
    - intros [= <- <-]. apply readHeader_throws in Eh. tauto. }
  destruct Hstep as (header & w1 & Eh & Ec).
  apply readHeader_returns in Eh.
  destruct Eh as (Hsz & Hheader & Hrx & Htx & Hcalls).
  destruct (checkHeader_frame _ _ _ _ _ Ec) as [-> _].
  subst header. repeat split; assumption.
Qed.

(** The eight-byte type read off a header of another class: the two payload
    bytes behind the header stay on the stream. *)
Lemma read_mismatch_consumes_header_witness :
  read Samples.E (Samples.fresh [x00; x08; x06; x09; x01; x02])
    = (Throw ClassMismatch, Samples.fresh [x01; x02])
  /\ rx (socket (Samples.fresh [x01; x02]))
     = skipn 4 [x00; x08; x06; x09; x01; x02].
Proof.
  assert (Hthrow : read Samples.E
                     (Samples.fresh [x00; x08; x06; x09; x01; x02])
                   = (Throw ClassMismatch, Samples.fresh [x01; x02]))
    by reflexivity.
  split; [exact Hthrow|].
  refine (proj1 (proj2
    (read_mismatch_consumes_header Samples.E
       (Samples.fresh [x00; x08; x06; x09; x01; x02])
       (Samples.fresh [x01; x02]) ClassMismatch _ (or_introl Hthrow)))).
  discriminate.
Defined.

(** ** Dispatch *)

(** One step of [dispatch]: the first handler is tried with the test
    [selects] of its argument type; when the test passes the payload is read
    the way of that type and the handler invoked, and otherwise the remaining
    handlers are tried. *)
Lemma dispatch_cons (header : Header) (function : Function)
  (functions : list Function) :
  dispatch header (function :: functions) =
    let T := FirstArgument function in
    if selects header T
    then if Partial T
         then r <- readPayload_leftover T header ;;
              invoke function (fst r) (Some (snd r))
         else payload <- readPayload T header ;;
              invoke function payload None
    else dispatch header functions.
Proof.
  cbn [dispatch]. unfold selects.
  destruct (Partial (FirstArgument function)); reflexivity.
Qed.

Lemma dispatch_passes_over (header : Header) (before after : list Function) :
  passes_over header before ->
  dispatch header (before ++ after) = dispatch header after.
Proof.
  induction 1 as [|f before Hf _ IH]; [reflexivity|].
  rewrite <- app_comm_cons, dispatch_cons. cbv zeta. now rewrite Hf.
Qed.

Lemma dispatch_unmatched (header : Header) (functions : list Function)
  (w : World) :
  passes_over header functions ->
  dispatch header functions w = (Return tt, w).
Proof.
  intros Hnone.
  rewrite <- (app_nil_r functions), dispatch_passes_over by exact Hnone.
  reflexivity.
Qed.

(** C1, as the code has it: the test of [dispatch] for a handler of a partial
    type passes exactly when the class id and the command id of the header
    are those of the type; the length of the header is not looked at.  The
    test is the one [dispatch] takes its decision by. *)
Theorem dispatch_partial_test (header : Header) (function : Function)
  (functions : list Function) :
  Partial (FirstArgument function) = true ->
  let T := FirstArgument function in
  (selects header T = true <-> cls header = Tcls T /\ cmd header = Tcmd T)
  /\ dispatch header (function :: functions) =
       if selects header T
       then r <- readPayload_leftover T header ;;
            invoke function (fst r) (Some (snd r))
       else dispatch header functions.
Proof.
  intros Hp T. subst T. split.
  - unfold selects. rewrite Hp, andb_true_iff, !byte_eqb_eq.
    reflexivity.
  - rewrite dispatch_cons. cbv zeta. now rewrite Hp.
Qed.

(** The handler of the partial type is selected by the header of its class
    and command whose length, 1, is below the two bytes of the type. *)
Lemma dispatch_partial_test_witness :
  selects Samples.header_2_3_1 Samples.B = true
  /\ selects Samples.header_6_8_7 Samples.B = false.
Proof.
  destruct (dispatch_partial_test Samples.header_2_3_1 Samples.onB []
              eq_refl) as [[_ Hyes] _].
  destruct (dispatch_partial_test Samples.header_6_8_7 Samples.onB []
              eq_refl) as [[Hno _] _].
  split.
  - apply Hyes. split; reflexivity.
  - destruct (selects Samples.header_6_8_7 Samples.B) eqn:E; [|reflexivity].
    destruct (Hno E) as [Hc _]. discriminate Hc.
Defined.

(** C1, as stated, fails: for the partial type of two bytes and the header of
    its class and command and of length 1 the test passes, although the
    length is below the size of the type; the handler is tried, and the read
    of its payload takes the two bytes behind the header before it fails. *)
Lemma dispatch_partial_test_counterexample :
  Partial Samples.B = true
  /\ selects Samples.header_2_3_1 Samples.B = true
  /\ ~ (cls Samples.header_2_3_1 = Tcls Samples.B
        /\ cmd Samples.header_2_3_1 = Tcmd Samples.B
        /\ length Samples.header_2_3_1 >= sizeof Samples.B)
  /\ dispatch Samples.header_2_3_1 [Samples.onB]
       (Samples.fresh [x01; x02; x03])
     = (Throw TransportError, Samples.fresh [x03]).
Proof.
  split; [reflexivity|]. split; [reflexivity|]. split.
  - intros (_ & _ & Hlen). vm_compute in Hlen. apply Hlen. reflexivity.
  - vm_compute. reflexivity.
Qed.

Lemma size_t_small (z : Z) : 0 <= z < 2048 -> size_t z = z.
Proof.
  intros Hz. unfold size_t, SIZE_MODULUS, SIZE_WIDTH.
  apply Z.mod_small. assert (2048 < 2 ^ 64) by reflexivity. lia.
Qed.

(** C2, as the code has it: the handlers are tried in their order, and the
    first one that the header selects decides the call.  When the handlers
    before [function] are passed over and [function] is selected, dispatch
    does what it does for [function] alone, whatever handlers come after it.
    When moreover the header is not shorter than [sizeof T] and the stream
    delivers the payload, dispatch decodes the [sizeof T] bytes, takes the
    remaining bytes of the payload as the tail when [T] is partial, invokes
    [function] with them and no other handler, returns or throws as
    [function] does, and leaves the bytes behind the payload on the
    stream. *)
Theorem dispatch_first_match (header : Header) (before after : list Function)
  (function : Function) (w : World) :
  passes_over header before ->
  selects header (FirstArgument function) = true ->
  let T := FirstArgument function in
  dispatch header (before ++ function :: after) w
    = dispatch header [function] w
  /\ (forall payload tail stream,
         sizeof T <= length header ->
         rx (socket w) = payload ++ tail ++ stream ->
         size payload = sizeof T ->
         size payload + size tail = length header ->
         let leftover := if Partial T then Some tail else None in
         dispatch header (before ++ function :: after) w
           = (body function (unpack T payload) leftover,
              {| socket := {| rx := stream; tx := tx (socket w);
                              room := room (socket w) |};
                 calls := calls w
                          ++ [{| callee := function;
                                 argument := unpack T payload;
                                 rest := leftover |}] |})).
Proof.
  intros Hbefore Hsel T. subst T.
  set (T := FirstArgument function) in *.
  rewrite dispatch_passes_over by exact Hbefore.
  rewrite !dispatch_cons. cbv zeta. fold T. rewrite Hsel.
  split; [reflexivity|].
  intros payload tail stream Hlong Hrx Hp Hsum.
  pose proof (length_range header) as Hlen.
  pose proof (size_nonneg payload) as Hp0.
  pose proof (size_nonneg tail) as Ht0.
  destruct (Partial T) eqn:Hkind.
  - unfold bind.
    rewrite (readPayload_leftover_app T header payload tail stream w Hrx Hp)
      by (rewrite size_t_small; lia).
    reflexivity.
  - unfold selects in Hsel. rewrite Hkind in Hsel.
    apply andb_true_iff in Hsel. destruct Hsel as [_ Hsize].
    apply Z.eqb_eq in Hsize.
    assert (Htail : tail = []) by (apply size_zero; lia).
    subst tail. cbn [app] in Hrx. unfold bind.
    rewrite (readPayload_app T header payload stream w Hrx) by lia.
    reflexivity.
Qed.

(** The handlers [onE; onA; onB] and the header of class 2, command 3 and
    length 4: [onA] and [onB] have that identity, the fixed one comes first
    and its length test passes, so its handler receives the four bytes.  With
    the handler [failing] in the place of [onA] the call throws what that
    handler throws, after its invocation. *)
Lemma dispatch_first_match_witness :
  dispatch Samples.header_2_3_4 [Samples.onE; Samples.onA; Samples.onB]
    (Samples.fresh [x01; x02; x03; x04; xff])
  = (Return tt,
     {| socket := {| rx := [xff]; tx := []; room := None |};
        calls := [{| callee := Samples.onA;
                     argument := [67305985];
                     rest := None |}] |})
  /\ dispatch Samples.header_2_3_4
       [Samples.onE; Samples.failing; Samples.onB]
       (Samples.fresh [x01; x02; x03; x04; xff])
     = (Throw (HandlerError 7),
        {| socket := {| rx := [xff]; tx := []; room := None |};
           calls := [{| callee := Samples.failing;
                        argument := [67305985];
                        rest := None |}] |}).
Proof.
  assert (Hover : passes_over Samples.header_2_3_4 [Samples.onE])
    by (repeat constructor).
  split.
  - exact (proj2
      (dispatch_first_match Samples.header_2_3_4 [Samples.onE] [Samples.onB]
         Samples.onA (Samples.fresh [x01; x02; x03; x04; xff]) Hover eq_refl)
      [x01; x02; x03; x04] [] [xff]
      (Z.le_refl 4) eq_refl eq_refl eq_refl).
  - exact (proj2
      (dispatch_first_match Samples.header_2_3_4 [Samples.onE] [Samples.onB]
         Samples.failing (Samples.fresh [x01; x02; x03; x04; xff])
         Hover eq_refl)
      [x01; x02; x03; x04] [] [xff]
      (Z.le_refl 4) eq_refl eq_refl eq_refl).
Defined.

(** C2, as stated, fails: the header of class 2, command 3 and length 1
    selects the handler of the partial type of two bytes, the first in the
    list, but that handler is not invoked: the read of its payload takes the
    one payload byte and the first byte of the next message and then fails,
    and the call throws.  The handler behind it, whose type of one byte the
    message fits, is not tried. *)
Lemma dispatch_first_match_counterexample :
  selects Samples.header_2_3_1 (FirstArgument Samples.onB) = true
  /\ selects Samples.header_2_3_1 (FirstArgument Samples.onC) = true
  /\ dispatch Samples.header_2_3_1 [Samples.onB; Samples.onC]
       (Samples.fresh [x01; x00; x04; x02; x03])
     = (Throw TransportError, Samples.fresh [x04; x02; x03]).
Proof.
  vm_compute. repeat split.
Qed.

(** C3: when the header read off the stream is passed over by every handler,
    the dispatching read returns, without an exception; no handler has been
    invoked and nothing has been written. *)
Theorem read_dispatch_unmatched (functions : list Function)
  (hb stream : Buffer) (w : World) :
  rx (socket w) = hb ++ stream -> size hb = sizeof_Header ->
  passes_over (unpack_Header hb) functions ->
  fst (read_dispatch functions w) = Return tt
  /\ calls (snd (read_dispatch functions w)) = calls w
  /\ tx (socket (snd (read_dispatch functions w))) = tx (socket w).
Proof.
  intros Hrx Hsz Hnone. unfold read_dispatch, bind.
  rewrite (readHeader_app _ _ _ Hrx Hsz).
  rewrite dispatch_unmatched by exact Hnone.
  repeat split.
Qed.

(** Handlers for the identities (2,3) and (5,9), and a header of class 6 and
    command 8. *)
Lemma read_dispatch_unmatched_witness :
  fst (read_dispatch [Samples.onA; Samples.onB; Samples.onE]
         (Samples.fresh [x00; x07; x06; x08; x01; x02])) = Return tt
  /\ calls (snd (read_dispatch [Samples.onA; Samples.onB; Samples.onE]
                   (Samples.fresh [x00; x07; x06; x08; x01; x02]))) = [].
Proof.
  assert (Hnone : passes_over (unpack_Header [x00; x07; x06; x08])
                    [Samples.onA; Samples.onB; Samples.onE])
    by (repeat constructor).
  destruct (read_dispatch_unmatched [Samples.onA; Samples.onB; Samples.onE]
              [x00; x07; x06; x08] [x01; x02]
              (Samples.fresh [x00; x07; x06; x08; x01; x02])
              eq_refl eq_refl Hnone) as (Hret & Hcalls & _).
  split; [exact Hret | exact Hcalls].
Defined.

(** C8: when the header read off the stream is passed over by every handler,
    the dispatching read has taken the four header bytes and no more: the
    stream still delivers everything behind the header, the payload bytes
    first. *)
Theorem read_dispatch_leaves_payload (functions : list Function)
  (hb stream : Buffer) (w : World) :
  rx (socket w) = hb ++ stream -> size hb = sizeof_Header ->
  passes_over (unpack_Header hb) functions ->
  rx (socket (snd (read_dispatch functions w))) = stream
  /\ size (rx (socket w))
     - size (rx (socket (snd (read_dispatch functions w)))) = 4.
Proof.
  intros Hrx Hsz Hnone. unfold read_dispatch, bind.
  rewrite (readHeader_app _ _ _ Hrx Hsz).
  rewrite dispatch_unmatched by exact Hnone.
  cbn [snd socket rx]. split; [reflexivity|].
  rewrite Hrx, size_app, Hsz. unfold sizeof_Header. lia.
Qed.

(** A header of length 2 that no handler takes: its two payload bytes and
    the byte behind them are what the stream delivers next. *)
Lemma read_dispatch_leaves_payload_witness :
  rx (socket (snd (read_dispatch [Samples.onA; Samples.onB; Samples.onE]
                     (Samples.fresh [x00; x02; x06; x08; x01; x02; xff]))))
  = [x01; x02; xff].
Proof.
  refine (proj1
    (read_dispatch_leaves_payload [Samples.onA; Samples.onB; Samples.onE]
       [x00; x02; x06; x08] [x01; x02; xff]
       (Samples.fresh [x00; x02; x06; x08; x01; x02; xff])
       eq_refl eq_refl _)).
  repeat constructor.
Defined.

(** ** The tail of a partial message *)

(** A header shorter than the type makes the subtraction wrap around: the
    read of the tail asks for more bytes than the stream holds and fails, so
    no message is decoded from such a header. *)
Lemma readPayload_leftover_short (T : Message) (header : Header) (w : World) :
  size (rx (socket w)) < SIZE_MODULUS ->
  length header < sizeof T ->
  exists w', readPayload_leftover T header w = (Throw TransportError, w').
Proof.
  intros Hbound Hshort.
  destruct (readPayload_leftover T header w) as [[[payload tail]|e] w'] eqn:E.
  - exfalso.
    unfold readPayload_leftover, bind in E.
    destruct (socket_read (sizeof T) w) as [[prefix|e1] w1] eqn:E1;
      [|discriminate].
    destruct (socket_read (size_t (length header - sizeof T)) w1)
      as [[tail'|e2] w2] eqn:E2; [|discriminate].
    assert (Hpos : 0 <= size_t (length header - sizeof T) < SIZE_MODULUS).
    { unfold size_t. apply Z.mod_pos_bound. reflexivity. }
    apply socket_read_returns in E1; [|apply sizeof_nonneg].
    apply socket_read_returns in E2; [|lia].
    destruct E1 as (Hrx1 & Hsz1 & _). destruct E2 as (Hrx2 & Hsz2 & _).
    assert (Hwrap : size_t (length header - sizeof T)
                    = length header - sizeof T + SIZE_MODULUS).
    { unfold size_t. symmetry.
      pose proof (length_range header).
      pose proof (size_nonneg (rx (socket w1))).
      assert (sizeof T <= size (rx (socket w)))
        by (rewrite Hrx1, size_app, Hsz1; lia).
      apply Z.mod_unique with (q := -1); [left|]; lia. }
    pose proof (size_nonneg (rx (socket w2))).
    pose proof (length_range header).
    rewrite Hrx1, Hrx2, !size_app, Hsz1, Hsz2, Hwrap in Hbound. lia.
  - exists w'. now rewrite (readPayload_leftover_throws _ _ _ _ _ E).
Qed.

(** C5: when the read of a partial payload returns, the tail it hands back
    has exactly [length header - sizeof T] bytes, and that number is not
    negative; the value is decoded from the [sizeof T] bytes before the tail.
    The stream is one whose bytes a [std::size_t] counts. *)
Theorem readPayload_leftover_size (T : Message) (header : Header)
  (w w' : World) (payload : Value) (leftover : Buffer) :
  size (rx (socket w)) < SIZE_MODULUS ->
  readPayload_leftover T header w = (Return (payload, leftover), w') ->
  size leftover = length header - sizeof T
  /\ 0 <= length header - sizeof T
  /\ exists prefix,
       rx (socket w) = prefix ++ leftover ++ rx (socket w')
       /\ size prefix = sizeof T /\ payload = unpack T prefix.
Proof.
  intros Hbound. unfold readPayload_leftover, bind.
  destruct (socket_read (sizeof T) w) as [[prefix|e1] w1] eqn:E1;
    [|discriminate].
  destruct (socket_read (size_t (length header - sizeof T)) w1)
    as [[tail|e2] w2] eqn:E2; [|discriminate].
  intros [= <- <- <-].
  assert (Hpos : 0 <= size_t (length header - sizeof T) < SIZE_MODULUS).
  { unfold size_t. apply Z.mod_pos_bound. reflexivity. }
  apply socket_read_returns in E1; [|apply sizeof_nonneg].
  apply socket_read_returns in E2; [|lia].
  destruct E1 as (Hrx1 & Hsz1 & _). destruct E2 as (Hrx2 & Hsz2 & _).
  assert (Htotal : size (rx (socket w))
                   = sizeof T + size tail + size (rx (socket w2))).
  { rewrite Hrx1, Hrx2, !size_app, Hsz1. lia. }
  pose proof (size_nonneg (rx (socket w2))) as Hrest.
  pose proof (length_range header) as Hlen.
  pose proof (sizeof_nonneg T) as HT.
  assert (Hge : sizeof T <= length header).
  { destruct (Z.le_gt_cases (sizeof T) (length header)) as [Hle|Hgt];
      [exact Hle|exfalso].
    assert (Hwrap : size_t (length header - sizeof T)
                    = length header - sizeof T + SIZE_MODULUS).
    { unfold size_t. symmetry.
      apply Z.mod_unique with (q := -1); [left|]; lia. }
    lia. }
  assert (Hexact : size_t (length header - sizeof T)
                   = length header - sizeof T).
  { unfold size_t. apply Z.mod_small.
    assert (2048 < SIZE_MODULUS) by reflexivity. lia. }
  repeat split; try lia.
  exists prefix. rewrite Hrx1, Hrx2. repeat split. exact Hsz1.
Qed.

(** The partial type of two bytes and a payload of six: the value is decoded
    from the first two bytes and the tail is the last four. *)
Lemma readPayload_leftover_size_witness :
  readPayload_leftover Samples.B
    {| bits := x00; length0 := x06; cls := x02; cmd := x03 |}
    (Samples.fresh [x01; x02; x03; x04; x05; x06; xff])
  = (Return ([513], [x03; x04; x05; x06]), Samples.fresh [xff])
  /\ size [x03; x04; x05; x06] = 6 - 2.
Proof.
  assert (Hrun : readPayload_leftover Samples.B
                   {| bits := x00; length0 := x06; cls := x02; cmd := x03 |}
                   (Samples.fresh [x01; x02; x03; x04; x05; x06; xff])
                 = (Return ([513], [x03; x04; x05; x06]),
                    Samples.fresh [xff])) by reflexivity.
  split; [exact Hrun|].
  refine (proj1 (readPayload_leftover_size _ _ _ _ _ _ _ Hrun)).
  reflexivity.
Defined.

(** ** What a read that returns has done *)

Lemma checkHeader_returns (T : Message) (header : Header) (w w' : World)
  (u : unit) :
  checkHeader T header w = (Return u, w') ->
  w' = w /\ cls header = Tcls T /\ cmd header = Tcmd T
  /\ (Partial T = true \/ length header = sizeof T).
Proof.
  unfold checkHeader.
  destruct (Byte.eqb (cls header) (Tcls T)) eqn:Ec; [|discriminate].
  destruct (Byte.eqb (cmd header) (Tcmd T)) eqn:Ed; [|discriminate].
  cbn [negb].
  destruct (Partial T) eqn:Ep; cbn [negb andb].
  - intros [= _ <-]. apply byte_eqb_eq in Ec, Ed. auto.
  - destruct (length header =? sizeof T) eqn:El; [|discriminate].
    intros [= _ <-]. apply byte_eqb_eq in Ec, Ed. apply Z.eqb_eq in El. auto.
Qed.

Lemma readPayload_returns (T : Message) (header : Header) (w w' : World)
  (v : Value) :
  readPayload T header w = (Return v, w') ->
  exists payload,
    rx (socket w) = payload ++ rx (socket w')
    /\ size payload = length header /\ v = unpack T payload
    /\ tx (socket w') = tx (socket w) /\ calls w' = calls w.
Proof.
  unfold readPayload, bind.
  destruct (socket_read (length header) w) as [[buf|e] w1] eqn:E;
    [|discriminate].
  intros [= <- <-].
  apply socket_read_returns in E; [|apply length_range].
  destruct E as (Hrx & Hsz & _ & Htx & Hcalls).
  exists buf. auto.
Qed.

Lemma size_t_range (z : Z) : 0 <= size_t z < SIZE_MODULUS.
Proof. unfold size_t. apply Z.mod_pos_bound. reflexivity. Qed.

Lemma readPayload_leftover_returns (T : Message) (header : Header)
  (w w' : World) (v : Value) (tail : Buffer) :
  readPayload_leftover T header w = (Return (v, tail), w') ->
  exists prefix,
    rx (socket w) = prefix ++ tail ++ rx (socket w')
    /\ size prefix = sizeof T
    /\ size tail = size_t (length header - sizeof T)
    /\ v = unpack T prefix
    /\ tx (socket w') = tx (socket w) /\ calls w' = calls w.
Proof.
  unfold readPayload_leftover, bind.
  destruct (socket_read (sizeof T) w) as [[prefix|e1] w1] eqn:E1;
    [|discriminate].
  destruct (socket_read (size_t (length header - sizeof T)) w1)
    as [[buf|e2] w2] eqn:E2; [|discriminate].
  intros [= <- <- <-].
  apply socket_read_returns in E1; [|apply sizeof_nonneg].
  apply socket_read_returns in E2; [|apply size_t_range].
  destruct E1 as (Hrx1 & Hsz1 & _ & Htx1 & Hcalls1).
  destruct E2 as (Hrx2 & Hsz2 & _ & Htx2 & Hcalls2).
  exists prefix. rewrite Hrx1, Hrx2. repeat split; try assumption; congruence.
Qed.

Lemma readHeader_split (w w' : World) (header : Header) :
  readHeader w = (Return header, w') ->
  exists hb,
    rx (socket w) = hb ++ rx (socket w') /\ size hb = sizeof_Header
    /\ header = unpack_Header hb
    /\ tx (socket w') = tx (socket w) /\ calls w' = calls w.
Proof.
  unfold readHeader, bind.
  destruct (socket_read sizeof_Header w) as [[buf|e] w1] eqn:E;
    [|discriminate].
  intros [= <- <-].
  apply socket_read_returns in E; [|unfold sizeof_Header; lia].
  destruct E as (Hrx & Hsz & _ & Htx & Hcalls).
  exists buf. auto.
Qed.

(** X1: a typed read [read<T>()] that returns has taken off the stream one
    header and the [header.length()] bytes behind it, and nothing more; the
    header has the class and command of [T] and, unless [T] is partial, the
    length [sizeof T]; the value is decoded from those payload bytes; nothing
    was written and no handler invoked. *)
Theorem read_returns (T : Message) (w w' : World) (v : Value) :
  read T w = (Return v, w') ->
  exists hb payload,
    rx (socket w) = hb ++ payload ++ rx (socket w')
    /\ size hb = 4
    /\ cls (unpack_Header hb) = Tcls T /\ cmd (unpack_Header hb) = Tcmd T
    /\ (Partial T = true \/ length (unpack_Header hb) = sizeof T)
    /\ size payload = length (unpack_Header hb)
    /\ v = unpack T payload
    /\ tx (socket w') = tx (socket w) /\ calls w' = calls w.
Proof.
  unfold read, bind.
  destruct (readHeader w) as [[header|e1] w1] eqn:Eh; [|discriminate].
  destruct (checkHeader T header w1) as [[u|e2] w2] eqn:Ec; [|discriminate].
  intros Ep.
  apply readHeader_split in Eh.
  destruct Eh as (hb & Hrx1 & Hsz & -> & Htx1 & Hcalls1).
  apply checkHeader_returns in Ec. destruct Ec as (-> & Hc & Hd & Hl).
  apply readPayload_returns in Ep.
  destruct Ep as (payload & Hrx2 & Hp & -> & Htx2 & Hcalls2).
  exists hb, payload. rewrite Hrx1, Hrx2.
  repeat split; try assumption; congruence.
Qed.

Lemma read_returns_witness :
  exists hb payload,
    [x00; x04; x02; x03; x01; x02; x03; x04; xff] = hb ++ payload ++ [xff]
    /\ size hb = 4 /\ size payload = length (unpack_Header hb).
Proof.
  destruct (read_returns Samples.A
              (Samples.fresh [x00; x04; x02; x03; x01; x02; x03; x04; xff])
              (Samples.fresh [xff]) [67305985] eq_refl)
    as (hb & payload & Hrx & Hsz & _ & _ & _ & Hp & _).
  exists hb, payload. repeat split; assumption.
Defined.

Lemma world_eq (w w' : World) :
  rx (socket w') = rx (socket w) -> tx (socket w') = tx (socket w) ->
  room (socket w') = room (socket w) ->
  calls w' = calls w -> w' = w.
Proof.
  destruct w as [[r t o] c], w' as [[r' t' o'] c']. cbn. congruence.
Qed.

(** The reads leave the room of the link as it is. *)
Lemma socket_read_room (n : Z) (w w' : World) (r : Result Buffer) :
  socket_read n w = (r, w') -> room (socket w') = room (socket w).
Proof.
  unfold socket_read, Serial_read.
  destruct (n <=? size (rx (socket w))); now intros [= _ <-].
Qed.

Lemma readPayload_leftover_room (T : Message) (header : Header)
  (w w' : World) (r : Result (Value * Buffer)) :
  readPayload_leftover T header w = (r, w') ->
  room (socket w') = room (socket w).
Proof.
  unfold readPayload_leftover, bind.
  destruct (socket_read (sizeof T) w) as [[prefix|e1] w1] eqn:E1.
  - apply socket_read_room in E1.
    destruct (socket_read (size_t (length header - sizeof T)) w1)
      as [[buf|e2] w2] eqn:E2; apply socket_read_room in E2;
      intros [= _ <-]; congruence.
  - apply socket_read_room in E1. now intros [= _ <-].
Qed.

Lemma size_t_zero : size_t 0 = 0.
Proof. reflexivity. Qed.

(** The subtraction [len - sz] in [std::size_t] does not wrap when the bytes
    it asks for, after [sz] others, are fewer than a [std::size_t] counts. *)
Lemma size_t_no_wrap (len sz : Z) :
  0 <= len < 2048 -> 0 <= sz ->
  sz + size_t (len - sz) < SIZE_MODULUS ->
  size_t (len - sz) = len - sz.
Proof.
  intros Hlen Hsz Hfit.
  assert (HM : 2048 < SIZE_MODULUS) by reflexivity.
  destruct (Z.le_gt_cases sz len) as [Hle|Hgt].
  - unfold size_t. apply Z.mod_small. lia.
  - exfalso.
    assert (Hwrap : size_t (len - sz) = len - sz + SIZE_MODULUS).
    { unfold size_t. symmetry.
      pose proof (size_t_range (len - sz)).
      apply Z.mod_unique with (q := -1); [left|]; lia. }
    lia.
Qed.

(** X2: a read with a buffer, [read<T>(Buffer &)], that returns has taken off
    the stream one header of the class and command of [T] and the
    [header.length()] bytes behind it: the first [sizeof T] are decoded into
    the value and the others are the buffer handed back.  The stream is one
    whose bytes a [std::size_t] counts. *)
Theorem read_leftover_returns (T : Message) (w w' : World) (v : Value)
  (tail : Buffer) :
  size (rx (socket w)) < SIZE_MODULUS ->
  read_leftover T w = (Return (v, tail), w') ->
  exists hb prefix,
    rx (socket w) = hb ++ prefix ++ tail ++ rx (socket w')
    /\ size hb = 4
    /\ cls (unpack_Header hb) = Tcls T /\ cmd (unpack_Header hb) = Tcmd T
    /\ size prefix = sizeof T
    /\ size prefix + size tail = length (unpack_Header hb)
    /\ v = unpack T prefix
    /\ tx (socket w') = tx (socket w) /\ calls w' = calls w.
Proof.
  intros Hbound. unfold read_leftover, bind.
  destruct (readHeader w) as [[header|e1] w1] eqn:Eh; [|discriminate].
  destruct (checkHeader T header w1) as [[u|e2] w2] eqn:Ec; [|discriminate].
  intros Ep.
  apply readHeader_split in Eh.
  destruct Eh as (hb & Hrx1 & Hsz & -> & Htx1 & Hcalls1).
  apply checkHeader_returns in Ec. destruct Ec as (-> & Hc & Hd & _).
  apply readPayload_leftover_returns in Ep.
  destruct Ep as (prefix & Hrx2 & Hp & Ht & -> & Htx2 & Hcalls2).
  assert (Hexact : size_t (length (unpack_Header hb) - sizeof T)
                   = length (unpack_Header hb) - sizeof T).
  { apply size_t_no_wrap; [apply length_range | apply sizeof_nonneg |].
    rewrite Hrx1, Hrx2, !size_app, Hp, Ht in Hbound.
    pose proof (size_nonneg hb). pose proof (size_nonneg (rx (socket w'))).
    lia. }
  exists hb, prefix. rewrite Hrx1, Hrx2.
  repeat split; try assumption; try congruence. lia.
Qed.

Lemma read_leftover_returns_witness :
  exists hb prefix,
    [x00; x06; x02; x03; x01; x02; x03; x04; x05; x06; xff]
      = hb ++ prefix ++ [x03; x04; x05; x06] ++ [xff]
    /\ size prefix = 2 /\ size prefix + 4 = length (unpack_Header hb).
Proof.
  destruct (read_leftover_returns Samples.B
              (Samples.fresh
                 [x00; x06; x02; x03; x01; x02; x03; x04; x05; x06; xff])
              (Samples.fresh [xff]) [513] [x03; x04; x05; x06]
              eq_refl eq_refl)
    as (hb & prefix & Hrx & _ & _ & _ & Hp & Hsum & _).
  exists hb, prefix. repeat split; assumption.
Defined.

(** X3: for a type that is not partial the two typed reads agree: when
    [read<T>(Buffer &)] returns, the buffer it hands back is empty, and
    [read<T>()] returns the same value and leaves the same state. *)
Theorem read_leftover_fixed (T : Message) (w w' : World) (v : Value)
  (tail : Buffer) :
  Partial T = false ->
  read_leftover T w = (Return (v, tail), w') ->
  tail = [] /\ read T w = (Return v, w').
Proof.
  intros Hfixed. unfold read_leftover, read, bind.
  destruct (readHeader w) as [[header|e1] w1] eqn:Eh; [|discriminate].
  destruct (checkHeader T header w1) as [[u|e2] w2] eqn:Ec; [|discriminate].
  intros Ep.
  apply checkHeader_returns in Ec. destruct Ec as (-> & _ & _ & Hl).
  destruct Hl as [Hp|Hl]; [congruence|].
  pose proof (readPayload_leftover_room _ _ _ _ _ Ep) as Hroom.
  apply readPayload_leftover_returns in Ep.
  destruct Ep as (prefix & Hrx & Hp & Ht & -> & Htx & Hcalls).
  rewrite Hl, Z.sub_diag, size_t_zero in Ht.
  apply size_zero in Ht. subst tail. split; [reflexivity|].
  cbn [app] in Hrx.
  rewrite (readPayload_app T header prefix (rx (socket w')) w1 Hrx)
    by congruence.
  f_equal. symmetry.
  apply world_eq; cbn [socket rx tx room calls]; congruence.
Qed.

Lemma read_leftover_fixed_witness :
  read Samples.A (Samples.fresh [x00; x04; x02; x03; x01; x02; x03; x04; xff])
    = (Return [67305985], Samples.fresh [xff]).
Proof.
  refine (proj2 (read_leftover_fixed Samples.A
    (Samples.fresh [x00; x04; x02; x03; x01; x02; x03; x04; xff])
    (Samples.fresh [xff]) [67305985] [] eq_refl eq_refl)).
Defined.

(** ** Streams that end too early *)

Lemma socket_read_short (n : Z) (w : World) :
  size (rx (socket w)) < n -> socket_read n w = (Throw TransportError, w).
Proof.
  intros Hshort. unfold socket_read, Serial_read.
  destruct (Z.leb_spec n (size (rx (socket w)))) as [Hle|_]; [lia|].
  reflexivity.
Qed.

(** X4: on a stream that delivers fewer than the four bytes of a header,
    each of the reads throws the transport's error and leaves the state as it
    was: no byte is taken off the stream and no handler is invoked. *)
Theorem read_short_stream (T : Message) (functions : list Function)
  (w : World) :
  size (rx (socket w)) < 4 ->
  read T w = (Throw TransportError, w)
  /\ read_leftover T w = (Throw TransportError, w)
  /\ read_dispatch functions w = (Throw TransportError, w).
Proof.
  intros Hshort.
  assert (Hh : readHeader w = (Throw TransportError, w)).
  { unfold readHeader, bind. now rewrite socket_read_short. }
  unfold read, read_leftover, read_dispatch, bind. rewrite Hh. auto.
Qed.

Lemma read_short_stream_witness :
  read_dispatch [Samples.onA; Samples.onB] (Samples.fresh [x00; x04; x02])
    = (Throw TransportError, Samples.fresh [x00; x04; x02]).
Proof.
  refine (proj2 (proj2 (read_short_stream Samples.A
    [Samples.onA; Samples.onB] (Samples.fresh [x00; x04; x02]) _))).
  reflexivity.
Defined.

(** ** The validator and the test of dispatch *)

(** X5: the validator accepts a header for [T] exactly when [dispatch] selects
    a handler of type [T] for it: the inline tests of [dispatch] and the
    checks of [checkHeader] decide alike. *)
Theorem checkHeader_iff_selects (T : Message) (header : Header) (w : World) :
  checkHeader T header w = (Return tt, w) <-> selects header T = true.
Proof.
  unfold checkHeader, selects.
  destruct (Byte.eqb (cls header) (Tcls T)); cbn [negb andb];
    [|destruct (Partial T); split; discriminate].
  destruct (Byte.eqb (cmd header) (Tcmd T)); cbn [negb andb];
    [|destruct (Partial T); split; discriminate].
  destruct (Partial T); cbn [negb andb]; [tauto|].
  destruct (length header =? sizeof T); cbn [negb]; split;
    try discriminate; reflexivity.
Qed.

(** ** What dispatch has done when it comes back *)

Lemma firstn_size_app (a b : Buffer) (n : Z) :
  size a = n -> firstn (Z.to_nat n) (a ++ b) = a.
Proof.
  intros <-. unfold size. rewrite Nat2Z.id, firstn_app, Nat.sub_diag.
  rewrite firstn_all. cbn [firstn]. apply app_nil_r.
Qed.

Lemma skipn_size_app (a b : Buffer) (n : Z) :
  size a = n -> skipn (Z.to_nat n) (a ++ b) = b.
Proof.
  intros <-. unfold size. rewrite Nat2Z.id, skipn_app, Nat.sub_diag.
  rewrite skipn_all. reflexivity.
Qed.

Lemma selects_fixed_length (header : Header) (T : Message) :
  Partial T = false -> selects header T = true -> length header = sizeof T.
Proof.
  unfold selects. intros ->. rewrite !andb_true_iff.
  intros [_ Hl]. now apply Z.eqb_eq.
Qed.

(** The reads of a payload leave the written bytes and the invocations alone,
    whether they return or throw. *)
Lemma readPayload_frame (T : Message) (header : Header) (w w' : World)
  (r : Result Value) :
  readPayload T header w = (r, w') ->
  tx (socket w') = tx (socket w) /\ calls w' = calls w.
Proof.
  unfold readPayload, bind.
  destruct (socket_read (length header) w) as [[buf|e] w1] eqn:E.
  - intros [= _ <-].
    apply socket_read_returns in E; [tauto | apply length_range].
  - intros [= _ <-]. apply socket_read_throws in E. destruct E as [_ ->].
    tauto.
Qed.

Lemma readPayload_leftover_frame (T : Message) (header : Header)
  (w w' : World) (r : Result (Value * Buffer)) :
  readPayload_leftover T header w = (r, w') ->
  tx (socket w') = tx (socket w) /\ calls w' = calls w.
Proof.
  unfold readPayload_leftover, bind.
  destruct (socket_read (sizeof T) w) as [[prefix|e1] w1] eqn:E1.
  - apply socket_read_returns in E1; [|apply sizeof_nonneg].
    destruct E1 as (_ & _ & _ & Htx1 & Hcalls1).
    destruct (socket_read (size_t (length header - sizeof T)) w1)
      as [[buf|e2] w2] eqn:E2.
    + intros [= _ <-].
      apply socket_read_returns in E2; [|apply size_t_range].
      destruct E2 as (_ & _ & _ & Htx2 & Hcalls2). split; congruence.
    + intros [= _ <-]. apply socket_read_throws in E2.
      destruct E2 as [_ ->]. tauto.
  - intros [= _ <-]. apply socket_read_throws in E1. destruct E1 as [_ ->].
    tauto.
Qed.

(** The step of [dispatch] for a selected handler: either the read of the
    payload fails, and no handler is invoked; or the payload of
    [header.length()] bytes is off the stream and the handler has been invoked
    with it, and the step returns or throws as the handler does. *)
Lemma deliver_outcome (header : Header) (function : Function) (w w' : World)
  (r : Result unit) :
  size (rx (socket w)) < SIZE_MODULUS ->
  selects header (FirstArgument function) = true ->
  dispatch header [function] w = (r, w') ->
  (r = Throw TransportError
   /\ calls w' = calls w /\ tx (socket w') = tx (socket w))
  \/ (exists payload,
        rx (socket w) = payload ++ rx (socket w')
        /\ size payload = length header
        /\ sizeof (FirstArgument function) <= length header
        /\ calls w' = calls w ++ [delivery function payload]
        /\ tx (socket w') = tx (socket w)
        /\ r = body function (argument (delivery function payload))
                 (rest (delivery function payload))).
Proof.
  intros Hbound Hsel. rewrite dispatch_cons. cbv zeta. rewrite Hsel.
  set (T := FirstArgument function) in *.
  pose proof (length_range header) as Hlen.
  destruct (Partial T) eqn:Hkind; unfold bind.
  - destruct (readPayload_leftover T header w) as [[[v tail]|e] w1] eqn:E.
    + unfold invoke. intros [= <- <-]. right.
      apply readPayload_leftover_returns in E.
      destruct E as (prefix & Hrx & Hp & Ht & -> & Htx & Hcalls).
      assert (Hexact : size_t (length header - sizeof T)
                       = length header - sizeof T).
      { apply size_t_no_wrap; [exact Hlen | apply sizeof_nonneg |].
        rewrite Hrx, !size_app, Hp, Ht in Hbound.
        pose proof (size_nonneg (rx (socket w1))). lia. }
      exists (prefix ++ tail). cbn [socket rx tx calls fst snd].
      pose proof (size_nonneg tail).
      assert (Hcall : delivery function (prefix ++ tail)
                      = {| callee := function;
                           argument := unpack T prefix;
                           rest := Some tail |}).
      { unfold delivery. fold T. rewrite Hkind.
        now rewrite (firstn_size_app _ _ _ Hp), (skipn_size_app _ _ _ Hp). }
      rewrite Hcall. cbn [argument rest].
      repeat split.
      * now rewrite <- app_assoc.
      * rewrite size_app. lia.
      * lia.
      * now rewrite Hcalls.
      * exact Htx.
    + intros [= <- <-]. left.
      pose proof (readPayload_leftover_throws _ _ _ _ _ E) as ->.
      pose proof (readPayload_leftover_frame _ _ _ _ _ E). tauto.
  - destruct (readPayload T header w) as [[v|e] w1] eqn:E.
    + unfold invoke. intros [= <- <-]. right.
      apply readPayload_returns in E.
      destruct E as (payload & Hrx & Hp & -> & Htx & Hcalls).
      pose proof (selects_fixed_length header T Hkind Hsel) as Hsize.
      assert (Hcall : delivery function payload
                      = {| callee := function;
                           argument := unpack T payload;
                           rest := None |}).
      { unfold delivery. fold T. rewrite Hkind.
        rewrite firstn_all2; [reflexivity|]. unfold size in Hp. lia. }
      exists payload. rewrite Hcall. cbn [socket rx tx calls argument rest].
      repeat split; try assumption; [lia|]. now rewrite Hcalls.
    + intros [= <- <-]. left.
      pose proof (readPayload_throws _ _ _ _ _ E) as ->.
      pose proof (readPayload_frame _ _ _ _ _ E). tauto.
Qed.

Lemma any_selects_false (header : Header) (functions : list Function) :
  any_selects header functions = false <-> passes_over header functions.
Proof.
  unfold any_selects, passes_over.
  induction functions as [|f fs IH]; cbn [existsb].
  - split; [constructor | reflexivity].
  - rewrite orb_false_iff, IH. split.
    + intros [Hf Hfs]. now constructor.
    + intros H. inversion H; subst. auto.
Qed.

(** A list with a selected handler splits at the first one. *)
Lemma first_selected (header : Header) (functions : list Function) :
  any_selects header functions = true ->
  exists before f after,
    functions = before ++ f :: after
    /\ passes_over header before
    /\ selects header (FirstArgument f) = true.
Proof.
  induction functions as [|g fs IH]; cbn [any_selects existsb];
    [discriminate|].
  destruct (selects header (FirstArgument g)) eqn:Hg.
  - intros _. exists [], g, fs.
    split; [reflexivity|]. split; [constructor | exact Hg].
  - cbn [orb]. intros Hfs.
    destruct (IH Hfs) as (before & f & after & -> & Hb & Hf).
    exists (g :: before), f, after.
    split; [reflexivity|]. split; [now constructor | exact Hf].
Qed.

Lemma dispatch_first (header : Header) (before after : list Function)
  (function : Function) :
  passes_over header before ->
  selects header (FirstArgument function) = true ->
  dispatch header (before ++ function :: after) = dispatch header [function].
Proof.
  intros Hb Hsel. rewrite dispatch_passes_over by exact Hb.
  rewrite !dispatch_cons. cbv zeta. now rewrite Hsel.
Qed.

(** A dispatch that throws: the read of a selected handler's payload has
    failed before any invocation, or a selected handler was invoked and has
    thrown. *)
Lemma dispatch_throws (header : Header) (functions : list Function)
  (w w' : World) (e : Exception) :
  dispatch header functions w = (Throw e, w') ->
  tx (socket w') = tx (socket w)
  /\ ((e = TransportError /\ calls w' = calls w)
      \/ (exists c,
             calls w' = calls w ++ [c]
             /\ In (callee c) functions
             /\ selects header (FirstArgument (callee c)) = true
             /\ body (callee c) (argument c) (rest c) = Throw e)).
Proof.
  induction functions as [|f fs IH]; [discriminate|].
  rewrite dispatch_cons. cbv zeta.
  destruct (selects header (FirstArgument f)) eqn:Hsel.
  - destruct (Partial (FirstArgument f)); unfold bind.
    + destruct (readPayload_leftover (FirstArgument f) header w)
        as [[r|e1] w1] eqn:E;
        pose proof (readPayload_leftover_frame _ _ _ _ _ E) as [Htx Hcalls].
      * unfold invoke. intros [= Hbody <-]. cbn [socket calls].
        split; [exact Htx|]. right.
        eexists. rewrite Hcalls. split; [reflexivity|].
        cbn [callee argument rest]. split; [now left|]. auto.
      * intros [= <- <-].
        pose proof (readPayload_leftover_throws _ _ _ _ _ E). auto.
    + destruct (readPayload (FirstArgument f) header w)
        as [[r|e1] w1] eqn:E;
        pose proof (readPayload_frame _ _ _ _ _ E) as [Htx Hcalls].
      * unfold invoke. intros [= Hbody <-]. cbn [socket calls].
        split; [exact Htx|]. right.
        eexists. rewrite Hcalls. split; [reflexivity|].
        cbn [callee argument rest]. split; [now left|]. auto.
      * intros [= <- <-].
        pose proof (readPayload_throws _ _ _ _ _ E). auto.
  - intros Hd. destruct (IH Hd) as [Htx [Hleft|(c & Hc & Hin & Hrest)]].
    + auto.
    + split; [exact Htx|]. right. exists c.
      split; [exact Hc|]. split; [now right | exact Hrest].
Qed.

(** X6: a dispatching read that throws has written nothing, and has done one
    of two things.  Either it has invoked no handler and the exception is the
    transport's: the header, or the payload of the selected handler, could
    not be read.  Or it has invoked exactly one handler, one of the list that
    the header selects, and the exception is the one that handler has thrown
    on the arguments it was given. *)
Theorem read_dispatch_throws (functions : list Function) (w w' : World)
  (e : Exception) :
  read_dispatch functions w = (Throw e, w') ->
  tx (socket w') = tx (socket w)
  /\ ((e = TransportError /\ calls w' = calls w)
      \/ (exists c hb,
             calls w' = calls w ++ [c]
             /\ In (callee c) functions
             /\ rx (socket w) = hb ++ skipn 4 (rx (socket w))
             /\ size hb = 4
             /\ selects (unpack_Header hb) (FirstArgument (callee c)) = true
             /\ body (callee c) (argument c) (rest c) = Throw e)).
Proof.
  unfold read_dispatch, bind.
  destruct (readHeader w) as [[header|e1] w1] eqn:Eh.
  - intros Ed. apply dispatch_throws in Ed.
    pose proof (readHeader_returns _ _ _ Eh) as (_ & _ & Hskip & _).
    apply readHeader_split in Eh.
    destruct Eh as (hb & Hrx & Hsz & -> & Htx1 & Hcalls1).
    destruct Ed as [Htx [[-> Hcalls]|(c & Hc & Hin & Hsel & Hbody)]].
    + split; [congruence|]. left. split; [reflexivity | congruence].
    + split; [congruence|]. right. exists c, hb.
      rewrite <- Hskip, <- Hcalls1. auto 10.
  - intros [= <- <-]. apply readHeader_throws in Eh. destruct Eh as [-> ->].
    auto.
Qed.

(** A payload that the stream does not hold, and a handler that throws. *)
Lemma read_dispatch_throws_witness :
  read_dispatch [Samples.onA] (Samples.fresh [x00; x04; x02; x03; x01; x02])
    = (Throw TransportError, Samples.fresh [x01; x02])
  /\ tx (socket (Samples.fresh [x01; x02])) = []
  /\ read_dispatch [Samples.failing]
       (Samples.fresh [x00; x04; x02; x03; x01; x02; x03; x04])
     = (Throw (HandlerError 7),
        called (delivery Samples.failing [x01; x02; x03; x04])
          (Samples.fresh [])).
Proof.
  assert (Hrun : read_dispatch [Samples.onA]
                   (Samples.fresh [x00; x04; x02; x03; x01; x02])
                 = (Throw TransportError, Samples.fresh [x01; x02]))
    by reflexivity.
  split; [exact Hrun|]. split; [|reflexivity].
  exact (proj1 (read_dispatch_throws _ _ _ _ Hrun)).
Defined.

(** X7: a dispatching read that returns has read one header and then done
    one of two things.  Either no handler is selected by the header, and
    nothing but the header is off the stream and no handler was invoked.  Or
    it has invoked exactly one handler, the first in the list that the header
    selects, with the [header.length()] bytes behind the header, which are
    off the stream too.  Nothing was written.  The stream is one whose bytes
    a [std::size_t] counts. *)
Theorem read_dispatch_returns (functions : list Function) (w w' : World) :
  size (rx (socket w)) < SIZE_MODULUS ->
  read_dispatch functions w = (Return tt, w') ->
  tx (socket w') = tx (socket w)
  /\ exists hb,
       size hb = 4
       /\ ((passes_over (unpack_Header hb) functions
            /\ rx (socket w) = hb ++ rx (socket w')
            /\ calls w' = calls w)
           \/ (exists before f after payload,
                  functions = before ++ f :: after
                  /\ passes_over (unpack_Header hb) before
                  /\ selects (unpack_Header hb) (FirstArgument f) = true
                  /\ rx (socket w) = hb ++ payload ++ rx (socket w')
                  /\ size payload = length (unpack_Header hb)
                  /\ calls w' = calls w ++ [delivery f payload])).
Proof.
  intros Hbound. unfold read_dispatch, bind.
  destruct (readHeader w) as [[header|e1] w1] eqn:Eh; [|discriminate].
  apply readHeader_split in Eh.
  destruct Eh as (hb & Hrx & Hsz & -> & Htx1 & Hcalls1).
  set (header := unpack_Header hb) in *.
  assert (Hbound1 : size (rx (socket w1)) < SIZE_MODULUS).
  { rewrite Hrx, size_app in Hbound. pose proof (size_nonneg hb). lia. }
  destruct (any_selects header functions) eqn:Hany.
  - destruct (first_selected _ _ Hany) as (before & f & after & -> & Hb & Hf).
    rewrite (dispatch_first header before after f Hb Hf).
    intros Ed.
    destruct (deliver_outcome header f w1 w' _ Hbound1 Hf Ed)
      as [(Habs & _)|(payload & Hrx2 & Hp & _ & Hcalls & Htx & _)];
      [discriminate|].
    split; [congruence|].
    exists hb. split; [exact Hsz|]. right.
    exists before, f, after, payload.
    rewrite Hrx, Hrx2, Hcalls, Hcalls1. auto 10.
  - apply any_selects_false in Hany.
    rewrite dispatch_unmatched by exact Hany.
    intros [= <-]. split; [exact Htx1|].
    exists hb. split; [exact Hsz|]. left. auto.
Qed.

Lemma read_dispatch_returns_witness :
  tx (socket (Samples.fresh [xff])) = []
  /\ read_dispatch [Samples.onE; Samples.onB; Samples.onA]
       (Samples.fresh [x00; x04; x02; x03; x01; x02; x03; x04; xff])
     = (Return tt,
        called (delivery Samples.onB [x01; x02; x03; x04])
          (Samples.fresh [xff])).
Proof.
  assert (Hrun : read_dispatch [Samples.onE; Samples.onB; Samples.onA]
                   (Samples.fresh
                      [x00; x04; x02; x03; x01; x02; x03; x04; xff])
                 = (Return tt,
                    called (delivery Samples.onB [x01; x02; x03; x04])
                      (Samples.fresh [xff]))) by reflexivity.
  split; [|exact Hrun].
  refine (proj1 (read_dispatch_returns _ _ _ _ Hrun)). reflexivity.
Defined.

(** ** Handlers that can never run *)

Lemma selects_covers (T T' : Message) (header : Header) :
  covers T T' -> selects header T' = true -> selects header T = true.
Proof.
  intros (Hc & Hd & Hk). unfold selects. rewrite Hc, Hd.
  destruct Hk as [->|[-> Hs]].
  - destruct (Partial T'); rewrite !andb_true_iff; tauto.
  - rewrite Hs. destruct (Partial T); rewrite !andb_true_iff; tauto.
Qed.

Lemma dispatch_decided (header : Header) (decided others : list Function) :
  any_selects header decided = true ->
  dispatch header (decided ++ others) = dispatch header decided.
Proof.
  intros Hany.
  destruct (first_selected _ _ Hany) as (before & f & after & -> & Hb & Hf).
  rewrite <- app_assoc, <- app_comm_cons.
  now rewrite !(dispatch_first header before _ f Hb Hf).
Qed.

Lemma passes_over_app (header : Header) (l1 l2 : list Function) :
  passes_over header (l1 ++ l2) <->
  passes_over header l1 /\ passes_over header l2.
Proof. apply Forall_app. Qed.

(** X8: a handler behind one whose argument type covers its own is never
    invoked: dispatch does the same with it in the list as without.  That is
    the case behind a handler of a partial type with the same class and
    command, and behind a handler of a fixed type with the same class, command
    and size. *)
Theorem dispatch_covered (header : Header) (before mid after : list Function)
  (f g : Function) (w : World) :
  covers (FirstArgument f) (FirstArgument g) ->
  dispatch header (before ++ f :: mid ++ g :: after) w
    = dispatch header (before ++ f :: mid ++ after) w.
Proof.
  intros Hcov.
  replace (before ++ f :: mid ++ g :: after)
    with ((before ++ f :: mid) ++ g :: after)
    by (rewrite <- app_assoc; reflexivity).
  replace (before ++ f :: mid ++ after)
    with ((before ++ f :: mid) ++ after)
    by (rewrite <- app_assoc; reflexivity).
  destruct (any_selects header (before ++ f :: mid)) eqn:Hany.
  - now rewrite (dispatch_decided header _ (g :: after) Hany),
      (dispatch_decided header _ after Hany).
  - apply any_selects_false in Hany.
    rewrite (dispatch_passes_over header _ (g :: after) Hany),
      (dispatch_passes_over header _ after Hany).
    apply passes_over_app in Hany. destruct Hany as [_ Hfm].
    inversion Hfm as [|? ? Hf _]; subst.
    rewrite dispatch_cons. cbv zeta.
    destruct (selects header (FirstArgument g)) eqn:Hg; [|reflexivity].
    rewrite (selects_covers _ _ _ Hcov Hg) in Hf. discriminate.
Qed.

(** The handler of the four-byte fixed type behind the handler of the partial
    type of the same class and command. *)
Lemma dispatch_covered_witness :
  dispatch Samples.header_2_3_4 [Samples.onB; Samples.onE; Samples.onA]
    (Samples.fresh [x01; x02; x03; x04])
  = dispatch Samples.header_2_3_4 [Samples.onB; Samples.onE]
      (Samples.fresh [x01; x02; x03; x04]).
Proof.
  apply (dispatch_covered Samples.header_2_3_4 [] [Samples.onE] []
           Samples.onB Samples.onA).
  unfold covers. repeat split. left. reflexivity.
Defined.

(** ** One message after another *)

Lemma size_firstn_skipn (payload : Buffer) (n : Z) :
  0 <= n <= size payload ->
  size (firstn (Z.to_nat n) payload) = n
  /\ size (skipn (Z.to_nat n) payload) = size payload - n.
Proof.
  unfold size. intros Hn. rewrite length_firstn, length_skipn. lia.
Qed.

(** A message whose header selects a handler first and is not shorter than
    the handler's type, on a stream that holds its payload: the handler is
    invoked with the payload, the call returns or throws as the handler does,
    and the stream is left behind the message. *)
Lemma read_dispatch_delivers (functions : list Function) (f : Function)
  (hb payload stream : Buffer) (w : World) :
  rx (socket w) = hb ++ payload ++ stream ->
  size hb = sizeof_Header ->
  size payload = length (unpack_Header hb) ->
  first_match (unpack_Header hb) functions f ->
  sizeof (FirstArgument f) <= length (unpack_Header hb) ->
  read_dispatch functions w
    = (body f (argument (delivery f payload)) (rest (delivery f payload)),
       called (delivery f payload) (pending stream w)).
Proof.
  intros Hrx Hsz Hp (before & after & -> & Hb & Hf) Hsize.
  unfold read_dispatch, bind.
  rewrite (readHeader_app _ _ _ Hrx Hsz).
  set (header := unpack_Header hb) in *.
  rewrite (dispatch_first header before after f Hb Hf).
  rewrite dispatch_cons. cbv zeta. rewrite Hf.
  set (T := FirstArgument f) in *.
  pose proof (length_range header) as Hlen.
  pose proof (sizeof_nonneg T) as HT.
  destruct (size_firstn_skipn payload (sizeof T)) as [Hfirst Hskip]; [lia|].
  destruct (Partial T) eqn:Hkind; unfold bind.
  - rewrite (readPayload_leftover_app T header
               (firstn (Z.to_nat (sizeof T)) payload)
               (skipn (Z.to_nat (sizeof T)) payload) stream).
    + unfold invoke, called, pending, delivery. fold T. now rewrite Hkind.
    + cbn [socket rx]. now rewrite app_assoc, firstn_skipn.
    + exact Hfirst.
    + rewrite Hskip, size_t_small; lia.
  - rewrite (readPayload_app T header payload stream).
    + unfold invoke, called, pending, delivery. fold T. rewrite Hkind.
      pose proof (selects_fixed_length header T Hkind Hf) as Hexact.
      rewrite firstn_all2; [reflexivity|]. unfold size in Hp. lia.
    + reflexivity.
    + exact Hp.
Qed.

(** X9: two messages on the stream, each complete, each with a header that
    selects a handler first and is not shorter than that handler's argument
    type, are taken by two dispatching reads in their order, when the first
    handler returns: the first read invokes the first message's handler and
    stops behind that message, the second read invokes the second message's
    handler and returns or throws as that handler does, and the stream is
    left behind both. *)
Theorem read_dispatch_twice (functions : list Function) (f1 f2 : Function)
  (hb1 payload1 hb2 payload2 stream : Buffer) (w : World) :
  rx (socket w) = hb1 ++ payload1 ++ hb2 ++ payload2 ++ stream ->
  size hb1 = 4 -> size payload1 = length (unpack_Header hb1) ->
  size hb2 = 4 -> size payload2 = length (unpack_Header hb2) ->
  first_match (unpack_Header hb1) functions f1 ->
  first_match (unpack_Header hb2) functions f2 ->
  sizeof (FirstArgument f1) <= length (unpack_Header hb1) ->
  sizeof (FirstArgument f2) <= length (unpack_Header hb2) ->
  let c1 := delivery f1 payload1 in
  let c2 := delivery f2 payload2 in
  body f1 (argument c1) (rest c1) = Return tt ->
  (read_dispatch functions ;;; read_dispatch functions) w
    = (body f2 (argument c2) (rest c2),
       called c2 (called c1 (pending stream w))).
Proof.
  intros Hrx Hsz1 Hp1 Hsz2 Hp2 Hm1 Hm2 Hlong1 Hlong2 c1 c2 Hret.
  unfold bind.
  rewrite (read_dispatch_delivers functions f1 hb1 payload1
             (hb2 ++ payload2 ++ stream) w Hrx Hsz1 Hp1 Hm1 Hlong1).
  fold c1. rewrite Hret.
  rewrite (read_dispatch_delivers functions f2 hb2 payload2 stream
             (called c1 (pending (hb2 ++ payload2 ++ stream) w))
             eq_refl Hsz2 Hp2 Hm2 Hlong2).
  reflexivity.
Qed.

(** A message of the partial type with a tail of no bytes, then one of the
    four-byte fixed type. *)
Lemma read_dispatch_twice_witness :
  (read_dispatch [Samples.onA; Samples.onB] ;;;
   read_dispatch [Samples.onA; Samples.onB])
    (Samples.fresh [x00; x02; x02; x03; x0a; x0b;
                    x00; x04; x02; x03; x01; x02; x03; x04; xff])
  = (Return tt,
     {| socket := {| rx := [xff]; tx := []; room := None |};
        calls := [ {| callee := Samples.onB; argument := [2826];
                      rest := Some [] |};
                   {| callee := Samples.onA; argument := [67305985];
                      rest := None |} ] |}).
Proof.
  assert (Hm1 : first_match (unpack_Header [x00; x02; x02; x03])
                  [Samples.onA; Samples.onB] Samples.onB).
  { exists [Samples.onA], []. split; [reflexivity|].
    split; [repeat constructor | reflexivity]. }
  assert (Hm2 : first_match (unpack_Header [x00; x04; x02; x03])
                  [Samples.onA; Samples.onB] Samples.onA).
  { exists [], [Samples.onB]. split; [reflexivity|].
    split; [constructor | reflexivity]. }
  refine (read_dispatch_twice [Samples.onA; Samples.onB]
            Samples.onB Samples.onA
            [x00; x02; x02; x03] [x0a; x0b]
            [x00; x04; x02; x03] [x01; x02; x03; x04] [xff]
            (Samples.fresh [x00; x02; x02; x03; x0a; x0b;
                            x00; x04; x02; x03; x01; x02; x03; x04; xff])
            eq_refl eq_refl eq_refl eq_refl eq_refl Hm1 Hm2 _ _ eq_refl);
    discriminate.
Defined.

(** X10: when no handler is selected by a header, the payload behind it stays
    on the stream, and the next header the client reads is made of the first
    four bytes of that payload. *)
Theorem unmatched_payload_read_as_header (functions : list Function)
  (hb payload stream : Buffer) (w : World) :
  rx (socket w) = hb ++ payload ++ stream ->
  size hb = 4 -> size payload = length (unpack_Header hb) ->
  passes_over (unpack_Header hb) functions ->
  4 <= size payload ->
  (read_dispatch functions ;;; readHeader) w
    = (Return (unpack_Header (firstn 4 payload)),
       pending (skipn 4 payload ++ stream) w).
Proof.
  intros Hrx Hsz Hp Hnone Hlong. unfold bind at 1. unfold read_dispatch, bind at 1.
  rewrite (readHeader_app _ _ _ Hrx Hsz).
  rewrite dispatch_unmatched by exact Hnone.
  rewrite (readHeader_app (firstn 4 payload) (skipn 4 payload ++ stream)).
  - reflexivity.
  - cbn [socket rx]. now rewrite app_assoc, firstn_skipn.
  - destruct (size_firstn_skipn payload 4) as [Hfirst _]; [lia|].
    exact Hfirst.
Qed.

Lemma unmatched_payload_read_as_header_witness :
  (read_dispatch [Samples.onE] ;;; readHeader)
    (Samples.fresh [x00; x04; x02; x03; x00; x08; x05; x09; xff])
  = (Return {| bits := x00; length0 := x08; cls := x05; cmd := x09 |},
     Samples.fresh [xff]).
Proof.
  apply (unmatched_payload_read_as_header [Samples.onE]
           [x00; x04; x02; x03] [x00; x08; x05; x09] [xff]
           (Samples.fresh [x00; x04; x02; x03; x00; x08; x05; x09; xff]));
    try reflexivity.
  repeat constructor.
Defined.

(** ** Writing and reading back *)

Lemma sent_write (T : Message) (v : Value) :
  sent (write T v) = pack_Header (getHeader T 0) ++ pack T v.
Proof. reflexivity. Qed.

Lemma sent_write_leftover (T : Message) (v : Value) (tail : Buffer) :
  sent (write_leftover T v tail)
  = pack_Header (getHeader T (size tail)) ++ pack T v ++ tail.
Proof.
  unfold sent, write_leftover, bind, socket_write, Serial_write.
  cbn [snd socket tx silent app]. reflexivity.
Qed.

(** The header of a message of type [T] passes the validator for [T] when the
    type is partial or the message has no tail. *)
Lemma getHeader_selects (T : Message) (tail : Buffer) :
  sizeof T + size tail < 2048 ->
  Partial T = true \/ tail = [] ->
  selects (getHeader T (size tail)) T = true.
Proof.
  intros Hfit Hk. unfold selects.
  pose proof (sizeof_nonneg T). pose proof (size_nonneg tail).
  rewrite getHeader_length by lia. cbn [cls cmd getHeader].
  rewrite !(proj2 (byte_eqb_eq _ _) eq_refl).
  destruct Hk as [->| ->]; [reflexivity|].
  change (size []) with 0. rewrite Z.add_0_r, Z.eqb_refl.
  now destruct (Partial T).
Qed.

(** X11: what one client writes another reads back.  The bytes of
    [write(payload)] are read by [read<T>()] as the payload, and the bytes of
    [write(payload, leftover)], for a partial [T] or an empty buffer, are read
    by [read<T>(Buffer &)] as the payload and the buffer; in both cases the
    stream is left behind the message.  The payload is a legal value of [T]
    and the length one that the header holds. *)
Theorem read_after_write (T : Message) (v : Value) (tail stream : Buffer)
  (peer : World) :
  legal (fields T) v ->
  sizeof T + size tail < 2048 ->
  (rx (socket peer) = sent (write T v) ++ stream ->
   read T peer = (Return v, pending stream peer))
  /\ (Partial T = true \/ tail = [] ->
      rx (socket peer) = sent (write_leftover T v tail) ++ stream ->
      read_leftover T peer = (Return (v, tail), pending stream peer)).
Proof.
  intros Hlegal Hfit.
  pose proof (sizeof_nonneg T) as HT. pose proof (size_nonneg tail) as Ht.
  assert (Hv : unpack T (pack T v) = v)
    by (unfold unpack, pack; now apply unpack_pack_fields).
  split.
  - rewrite sent_write, <- app_assoc. intros Hrx.
    destruct (read_unfold T _ _ peer Hrx (size_pack_Header _)) as [Hread _].
    cbv zeta in Hread. rewrite unpack_pack_Header in Hread.
    assert (Hlen : length (getHeader T 0) = sizeof T)
      by (rewrite getHeader_length; lia).
    rewrite checkHeader_passes in Hread;
      [|reflexivity|reflexivity|right; exact Hlen].
    rewrite Hread.
    rewrite (readPayload_app T _ (pack T v) stream);
      [now rewrite Hv | reflexivity | now rewrite size_pack].
  - intros Hk. rewrite sent_write_leftover, <- app_assoc. intros Hrx.
    destruct (read_unfold T _ _ peer Hrx (size_pack_Header _)) as [_ Hread].
    cbv zeta in Hread. rewrite unpack_pack_Header in Hread.
    assert (Hlen : length (getHeader T (size tail)) = sizeof T + size tail)
      by (rewrite getHeader_length; lia).
    rewrite checkHeader_passes in Hread;
      [|reflexivity|reflexivity|].
    + rewrite Hread.
      rewrite (readPayload_leftover_app T _ (pack T v) tail stream);
        [now rewrite Hv | now rewrite <- app_assoc | apply size_pack |].
      rewrite Hlen, size_t_small; lia.
    + destruct Hk as [Hp| ->]; [now left|right].
      rewrite Hlen. change (size []) with 0. lia.
Qed.

Lemma read_after_write_witness :
  read Samples.Req (Samples.fresh [x00; x03; x04; x05; x07; x01; x02; xff])
    = (Return [7; 513], Samples.fresh [xff])
  /\ read_leftover Samples.B
       (Samples.fresh [x00; x05; x02; x03; x01; x02; xaa; xbb; xcc; xff])
     = (Return ([513], [xaa; xbb; xcc]), Samples.fresh [xff]).
Proof.
  split.
  - refine (proj1 (read_after_write Samples.Req [7; 513] [] [xff]
      (Samples.fresh [x00; x03; x04; x05; x07; x01; x02; xff]) _ _) eq_refl).
    + repeat constructor; simpl; lia.
    + unfold sizeof, size; simpl; lia.
  - refine (proj2 (read_after_write Samples.B [513] [xaa; xbb; xcc] [xff]
      (Samples.fresh [x00; x05; x02; x03; x01; x02; xaa; xbb; xcc; xff])
      _ _) (or_introl eq_refl) eq_refl).
    + repeat constructor; simpl; lia.
    + unfold sizeof, size; simpl; lia.
Defined.

(** X12: a message of a type that is not partial, written with a buffer that
    is not empty and with a length, [sizeof T] plus the size of the buffer,
    below 2048, is refused when it is read back as that type: both typed
    reads throw the length mismatch, with the header off the stream and the
    payload and the buffer still on it. *)
Theorem read_after_write_leftover_fixed (T : Message) (v : Value)
  (tail stream : Buffer) (peer : World) :
  Partial T = false -> tail <> [] ->
  sizeof T + size tail < 2048 ->
  rx (socket peer) = sent (write_leftover T v tail) ++ stream ->
  read T peer
    = (Throw LengthMismatch, pending (pack T v ++ tail ++ stream) peer)
  /\ read_leftover T peer
     = (Throw LengthMismatch, pending (pack T v ++ tail ++ stream) peer).
Proof.
  intros Hfixed Hne Hfit.
  pose proof (sizeof_nonneg T) as HT. pose proof (size_nonneg tail) as Ht.
  rewrite sent_write_leftover, <- !app_assoc. intros Hrx.
  destruct (read_unfold T _ _ peer Hrx (size_pack_Header _))
    as [Hread Hleft].
  cbv zeta in Hread, Hleft. rewrite unpack_pack_Header in Hread, Hleft.
  assert (Hlen : length (getHeader T (size tail)) <> sizeof T).
  { rewrite getHeader_length by lia.
    assert (size tail <> 0) by (intros H0; apply Hne, size_zero, H0). lia. }
  rewrite checkHeader_length in Hread, Hleft
    by (try reflexivity; assumption).
  split; assumption.
Qed.

Lemma read_after_write_leftover_fixed_witness :
  read Samples.A (Samples.fresh [x00; x05; x02; x03; x04; x03; x02; x01; xaa])
    = (Throw LengthMismatch, Samples.fresh [x04; x03; x02; x01; xaa]).
Proof.
  refine (proj1 (read_after_write_leftover_fixed Samples.A [16909060] [xaa]
    [] (Samples.fresh [x00; x05; x02; x03; x04; x03; x02; x01; xaa])
    eq_refl _ _ eq_refl)).
  - discriminate.
  - unfold sizeof, size; simpl; lia.
Defined.

(** X13: what one client writes, the dispatching read of another hands to
    the first handler that the header of the message selects, when that
    handler's argument type is the type written: the handler is invoked with
    the payload and, for a partial type, the buffer written behind it, and
    the call returns or throws as the handler does.  The payload is a legal
    value of the type, the type is partial or the buffer empty, and the
    length, [sizeof T] plus the size of the buffer, is below 2048, one that
    the header holds. *)
Theorem read_dispatch_after_write (before after : list Function)
  (f : Function) (v : Value) (tail stream : Buffer) (peer : World) :
  let T := FirstArgument f in
  let leftover := if Partial T then Some tail else None in
  legal (fields T) v ->
  sizeof T + size tail < 2048 ->
  Partial T = true \/ tail = [] ->
  passes_over (getHeader T (size tail)) before ->
  rx (socket peer) = sent (write_leftover T v tail) ++ stream ->
  read_dispatch (before ++ f :: after) peer
    = (body f v leftover,
       called {| callee := f; argument := v; rest := leftover |}
         (pending stream peer)).
Proof.
  intros T leftover Hlegal Hfit Hk Hbefore. subst leftover.
  pose proof (sizeof_nonneg T) as HT. pose proof (size_nonneg tail) as Ht.
  rewrite sent_write_leftover, <- app_assoc.
  replace (pack T v ++ tail ++ stream) with ((pack T v ++ tail) ++ stream)
    by (now rewrite <- app_assoc).
  intros Hrx.
  assert (Hlen : length (getHeader T (size tail)) = sizeof T + size tail)
    by (rewrite getHeader_length; lia).
  assert (Hv : unpack T (pack T v) = v)
    by (unfold unpack, pack; now apply unpack_pack_fields).
  assert (Hcall : delivery f (pack T v ++ tail)
                  = {| callee := f; argument := v;
                       rest := if Partial T then Some tail else None |}).
  { unfold delivery. fold T.
    rewrite (firstn_size_app _ _ _ (size_pack T v)).
    rewrite (skipn_size_app _ _ _ (size_pack T v)).
    now rewrite Hv. }
  rewrite (read_dispatch_delivers (before ++ f :: after) f _ _ _ _ Hrx).
  - now rewrite Hcall.
  - apply size_pack_Header.
  - rewrite unpack_pack_Header, size_app, size_pack. now rewrite Hlen.
  - rewrite unpack_pack_Header. exists before, after.
    split; [reflexivity|]. split; [exact Hbefore|].
    now apply getHeader_selects.
  - rewrite unpack_pack_Header. fold T. lia.
Qed.

Lemma read_dispatch_after_write_witness :
  read_dispatch [Samples.onE; Samples.onB; Samples.onA]
    (Samples.fresh [x00; x04; x02; x03; x01; x02; xaa; xbb; xff])
  = (Return tt,
     {| socket := {| rx := [xff]; tx := []; room := None |};
        calls := [ {| callee := Samples.onB; argument := [513];
                      rest := Some [xaa; xbb] |} ] |}).
Proof.
  refine (read_dispatch_after_write [Samples.onE] [Samples.onA] Samples.onB
    [513] [xaa; xbb] [xff]
    (Samples.fresh [x00; x04; x02; x03; x01; x02; xaa; xbb; xff])
    _ _ (or_introl eq_refl) _ eq_refl).
  - repeat constructor; simpl; lia.
  - unfold sizeof, size; simpl; lia.
  - repeat constructor.
Defined.

(** ** A link that fails during a send *)

(** X15: a send is three writes, or two, one after the other, and is not
    undone when a later one fails.  When the link does not take the four
    bytes of the header, [write(payload)] throws the transport's error and
    nothing is written; when it takes the header but not the header and the
    payload, [write(payload)] throws the transport's error with the header
    written and the payload not. *)
Theorem write_fails_midway (T : Message) (payload : Value) (w : World) :
  (takes 4 (socket w) = false ->
   write T payload w = (Throw TransportError, w))
  /\ (takes 4 (socket w) = true ->
      takes (4 + sizeof T) (socket w) = false ->
      write T payload w
        = (Throw TransportError, wrote (pack_Header (getHeader T 0)) w)).
Proof.
  set (hb := pack_Header (getHeader T 0)).
  split.
  - intros Hno. unfold write, bind. fold hb.
    now rewrite (socket_write_fails hb w Hno).
  - intros Hh Hno. unfold write, bind. fold hb.
    rewrite (socket_write_takes hb w Hh).
    rewrite socket_write_fails; [reflexivity|].
    destruct (takes (size (pack T payload)) (socket (wrote hb w))) eqn:Hp;
      [|reflexivity].
    assert (Hall : takes (size hb + size (pack T payload)) (socket w) = true)
      by (apply takes_app; auto).
    rewrite size_pack in Hall. change (size hb) with 4 in Hall. congruence.
Qed.

(** A link that takes five more bytes, and the request of three bytes. *)
Lemma write_fails_midway_witness :
  write Samples.Req [7; 513]
    {| socket := {| rx := []; tx := []; room := Some 5 |}; calls := [] |}
  = (Throw TransportError,
     {| socket := {| rx := []; tx := [x00; x03; x04; x05]; room := Some 1 |};
        calls := [] |}).
Proof.
  exact (proj2 (write_fails_midway Samples.Req [7; 513]
    {| socket := {| rx := []; tx := []; room := Some 5 |}; calls := [] |})
    eq_refl eq_refl).
Defined.

(** ** A header shorter than a partial type *)

(** X14: a header with the class and command of a partial type [T] and a
    length below [sizeof T] is not refused as a mismatch.  The read with a
    buffer passes the validator and dispatch selects the handler; the read of
    the payload then fails, so the call throws the transport's error, and no
    handler is invoked.  The stream is one whose bytes a [std::size_t]
    counts. *)
Theorem partial_short_header (before after : list Function) (f : Function)
  (hb stream : Buffer) (w : World) :
  let T := FirstArgument f in
  let header := unpack_Header hb in
  Partial T = true ->
  rx (socket w) = hb ++ stream -> size hb = 4 ->
  size (rx (socket w)) < SIZE_MODULUS ->
  cls header = Tcls T -> cmd header = Tcmd T ->
  length header < sizeof T ->
  passes_over header before ->
  (exists w', read_leftover T w = (Throw TransportError, w'))
  /\ (exists w',
         read_dispatch (before ++ f :: after) w = (Throw TransportError, w')
         /\ calls w' = calls w).
Proof.
  intros T header Hkind Hrx Hsz Hbound Hc Hd Hshort Hbefore.
  assert (Hbound1 : size (rx (socket (pending stream w))) < SIZE_MODULUS).
  { cbn [pending socket rx]. rewrite Hrx, size_app in Hbound.
    pose proof (size_nonneg hb). lia. }
  destruct (readPayload_leftover_short T header (pending stream w)
              Hbound1 Hshort) as [w' Hthrow].
  split.
  - exists w'.
    destruct (read_unfold T hb stream w Hrx Hsz) as [_ Hread].
    cbv zeta in Hread. fold header in Hread.
    rewrite checkHeader_passes in Hread by (try assumption; now left).
    rewrite Hread. exact Hthrow.
  - exists w'. split.
    + unfold read_dispatch, bind.
      rewrite (readHeader_app _ _ _ Hrx Hsz). fold header.
      assert (Hsel : selects header T = true).
      { unfold selects. rewrite Hkind, andb_true_iff, !byte_eqb_eq. auto. }
      rewrite (dispatch_first header before after f Hbefore Hsel).
      rewrite dispatch_cons. cbv zeta. fold T. rewrite Hsel, Hkind.
      unfold bind. unfold pending in Hthrow. now rewrite Hthrow.
    + apply readPayload_leftover_frame in Hthrow.
      destruct Hthrow as [_ Hcalls]. exact Hcalls.
Qed.

Lemma partial_short_header_witness :
  exists w',
    read_dispatch [Samples.onA; Samples.onB]
      (Samples.fresh [x00; x01; x02; x03; x01; x02; x03])
    = (Throw TransportError, w')
    /\ calls w' = [].
Proof.
  refine (proj2 (partial_short_header [Samples.onA] [] Samples.onB
    [x00; x01; x02; x03] [x01; x02; x03]
    (Samples.fresh [x00; x01; x02; x03; x01; x02; x03])
    eq_refl eq_refl eq_refl eq_refl eq_refl eq_refl eq_refl _)).
  repeat constructor.
Defined.
